(** * adjust-test-task: ratings over GitHub activity tables

    A shallow embedding of [main.go], [rating.go] and [eventTypes.go]:
    the record decoders, the bounded ranking structure [Rating] and the two
    aggregation strategies, followed by the properties of the
    specification that were checked against them.

    Conventions of the embedding:
    - a Go [int64] is a [Z] and every [+=] is written with [add64], the
      two's complement addition;
    - a Go [float64] is a [spec_float] at precision 53 and maximal
      exponent 1024, compared with [SFltb];
    - a Go function returning [(T, error)] returns a [result T]; a run-time
      panic (the nil dereference of [PerformanceOptimizedRatings]) is the
      third constructor [Panic];
    - a [map[string]*T] is a [gmap string T]: every pointer stored in the
      two maps of the program is created at its own key and never shared,
      so the map of values is the map of pointees;
    - an open CSV file is the list of the values [csv.Reader.Read] gives
      before [io.EOF], each one a record or an error;
    - the progress lines written with [fmt.Printf], the rendering
      [Rating.Pretty] and the download and extraction of the archive are
      not modelled. *)

From Stdlib Require Import ZArith Floats.SpecFloat DecimalString.
From stdpp Require Import gmap strings list fin_maps sorting.

Open Scope Z_scope.
Open Scope string_scope.
Open Scope list_scope.

(** ** Errors and results *)

(** The error values of [main.go]; [ErrIO] stands for whatever [os.Open]
    or [csv.Reader.Read] reports.  [ErrInvalidRepoCSV] carries the text
    of [ErrInvalidCommitCSV] in the source but is a value of its own. *)
Inductive error : Type :=
| ErrInvalidEventCSV
| ErrInvalidUserCSV
| ErrInvalidCommitCSV
| ErrInvalidRepoCSV
| ErrIO (msg : string).

Inductive result (A : Type) : Type :=
| Ok (a : A)
| Err (e : error)
| Panic.
Arguments Ok {A} a.
Arguments Err {A} e.
Arguments Panic {A}.

Definition bind {A B : Type} (m : result A) (k : A -> result B) : result B :=
  match m with
  | Ok a => k a
  | Err e => Err e
  | Panic => Panic
  end.

Notation "x <- m ;; k" := (bind m (fun x => k))
  (at level 100, m at next level, right associativity).

(** ** 64-bit signed arithmetic *)

Definition int64_min : Z := - 2 ^ 63.
Definition int64_max : Z := 2 ^ 63 - 1.

Definition wrap64 (z : Z) : Z := (z + 2 ^ 63) mod 2 ^ 64 - 2 ^ 63.

Definition add64 (a b : Z) : Z := wrap64 (a + b).

Definition in_int64 (z : Z) : Prop := int64_min <= z <= int64_max.

(** ** Event types ([eventTypes.go]) *)

Definition eventTypeCommitComment : string := "CommitCommentEvent".
Definition eventTypeCreate : string := "CreateEvent".
Definition eventTypeDelete : string := "DeleteEvent".
Definition eventTypeFork : string := "ForkEvent".
Definition eventTypeGollum : string := "GollumEvent".
Definition eventTypeIssueComment : string := "IssueCommentEvent".
Definition eventTypeIssues : string := "IssuesEvent".
Definition eventTypeMember : string := "MemberEvent".
Definition eventTypePublic : string := "PublicEvent".
Definition eventTypePullRequestReviewComment : string :=
  "PullRequestReviewCommentEvent".
Definition eventTypePush : string := "PushEvent".
Definition eventTypeRelease : string := "ReleaseEvent".
Definition eventTypeWatch : string := "WatchEvent".
Definition eventTypePullRequest : string := "PullRequestEvent".

(** ** Typed entities and their decoders *)

Module Event.
Record t : Type := mk
  { ID : string; Type_ : string; ActorID : string; RepoID : string }.
End Event.

Module User.
Record t : Type := mk { ID : string; Username : string }.
End User.

Module Commit.
Record t : Type := mk
  { Hash : string; Message : string; EventID : string }.
End Commit.

Module Repo.
Record t : Type := mk { ID : string; Name : string }.
End Repo.

(** Each decoder tests [len(csv)] and then reads the fields by index;
    [field csv i] is [csv[i]], which the length test keeps in range. *)
Definition field (csv : list string) (i : nat) : string := nth i csv EmptyString.

Definition NewEventFromCSV (csv : list string) : result Event.t :=
  if decide (length csv ≠ 4%nat) then Err ErrInvalidEventCSV
  else Ok {| Event.ID := field csv 0; Event.Type_ := field csv 1;
             Event.ActorID := field csv 2; Event.RepoID := field csv 3 |}.

Definition NewUserFromCSV (csv : list string) : result User.t :=
  if decide (length csv ≠ 2%nat) then Err ErrInvalidUserCSV
  else Ok {| User.ID := field csv 0; User.Username := field csv 1 |}.

Definition NewCommitFromCSV (csv : list string) : result Commit.t :=
  if decide (length csv ≠ 3%nat) then Err ErrInvalidCommitCSV
  else Ok {| Commit.Hash := field csv 0; Commit.Message := field csv 1;
             Commit.EventID := field csv 2 |}.

Definition NewRepoFromCSV (csv : list string) : result Repo.t :=
  if decide (length csv ≠ 2%nat) then Err ErrInvalidRepoCSV
  else Ok {| Repo.ID := field csv 0; Repo.Name := field csv 1 |}.

(** ** The ranking structure ([rating.go]) *)

Definition float64 : Type := spec_float.

(** [float64(n)] for an [int64] [n]: rounding to the nearest binary64. *)
Definition float64_of_int64 (n : Z) : float64 :=
  binary_normalize 53 1024 n 0 false.

(** [x > y] on [float64]; false as soon as one side is a NaN. *)
Definition float64_gt (x y : float64) : bool := SFltb y x.

Class Ratable (A : Type) : Type :=
  { GetRating : A -> float64;
    Pretty : A -> string }.

(** [size] is an [int] in the source; [NewRating] panics in [make] on a
    negative one, so the capacity of a [Rating] that exists is a [nat]. *)
Record Rating (A : Type) : Type := mkRating
  { slice : list A;
    size : nat }.
Arguments mkRating {A} slice size.
Arguments slice {A} r.
Arguments size {A} r.

Definition NewRating {A : Type} (size : nat) : Rating A :=
  {| slice := []; size := size |}.

(** [insert a index value].  [append(a[:index+1], a[index:]...)] copies
    with [memmove], so also in place it yields the first [index+1] items
    followed by the items from [index] on; the store at [index] then
    overwrites the doubled item.  For [index > len(a)] the source panics
    on [a[index:]]; [TryPush] only passes an [index < len(a)]. *)
Definition insert {A : Type} (a : list A) (index : nat) (value : A) : list A :=
  if decide (length a = index) then a ++ [value]
  else <[index := value]> (take (index + 1)%nat a ++ drop index a).

Section TryPush.
Context {A : Type} `{Ratable A}.

(** The [range] loop of [TryPush]: the index of the first held value
    that [item] strictly exceeds, scanning from index [i]. *)
Fixpoint scan (item : A) (values : list A) (i : nat) : option nat :=
  match values with
  | [] => None
  | value :: values' =>
      if float64_gt (GetRating item) (GetRating value) then Some i
      else scan item values' (S i)
  end.

(** [TryPush] returns its boolean together with the receiver after the
    call. *)
Definition TryPush (r : Rating A) (item : A) : bool * Rating A :=
  if decide (length (slice r) = 0%nat) then
    (true, {| slice := slice r ++ [item]; size := size r |})
  else
    match scan item (slice r) 0 with
    | Some i =>
        let s := insert (slice r) i item in
        let s := if decide (size r < length s)%nat then take (size r) s
                 else s in
        (true, {| slice := s; size := size r |})
    | None => (false, r)
    end.

(** The receiver after offering [items] one after the other. *)
Definition TryPushAll (r : Rating A) (items : list A) : Rating A :=
  foldl (fun r item => snd (TryPush r item)) r items.
End TryPush.

(** ** Rating candidates ([main.go]) *)

(** [%d] of [fmt.Sprintf] for an [int64]. *)
Definition fmt_d (n : Z) : string := NilZero.string_of_int (Z.to_int n).

Module CommitRatableRepo.
Record t : Type := mk { ID : string; Name : string; Commits : Z }.
End CommitRatableRepo.

Module WatchRatableRepo.
Record t : Type := mk { ID : string; Name : string; WatchEvents : Z }.
End WatchRatableRepo.

Module RatableUser.
Record t : Type := mk
  { ID : string; Username : string; Commits : Z; PREvents : Z }.
End RatableUser.

Module RepoWithCommitsAndWatches.
Record t : Type := mk
  { ID : string; Name : string; Commits : Z; WatchEvents : Z }.
End RepoWithCommitsAndWatches.

#[export] Instance CommitRatableRepo_Ratable : Ratable CommitRatableRepo.t :=
  {| GetRating r := float64_of_int64 (CommitRatableRepo.Commits r);
     Pretty r :=
       "ID: " +:+ CommitRatableRepo.ID r +:+ "; Name: "
       +:+ CommitRatableRepo.Name r +:+ "; Commits: "
       +:+ fmt_d (CommitRatableRepo.Commits r) +:+ ";" |}.

#[export] Instance WatchRatableRepo_Ratable : Ratable WatchRatableRepo.t :=
  {| GetRating r := float64_of_int64 (WatchRatableRepo.WatchEvents r);
     Pretty r :=
       "ID: " +:+ WatchRatableRepo.ID r +:+ "; Name: "
       +:+ WatchRatableRepo.Name r +:+ "; WatchEvents: "
       +:+ fmt_d (WatchRatableRepo.WatchEvents r) +:+ ";" |}.

#[export] Instance RatableUser_Ratable : Ratable RatableUser.t :=
  {| GetRating u :=
       float64_of_int64
         (add64 (RatableUser.PREvents u) (RatableUser.Commits u));
     Pretty u :=
       "ID: " +:+ RatableUser.ID u +:+ "; Username: "
       +:+ RatableUser.Username u +:+ "; Commits: "
       +:+ fmt_d (RatableUser.Commits u) +:+ "; PREvents: "
       +:+ fmt_d (RatableUser.PREvents u) +:+ ";" |}.

(** ** The tables *)

(** What reading an opened CSV file gives: the successive results of
    [Read] up to [io.EOF].  The first record read is the header.  The
    readers are made with [csv.NewReader] and left as they are, so a row
    whose number of fields is not that of the first record comes as a
    failed read (the reader's field-count error), not as a record. *)
Definition csvFile : Type := list (error + list string).

(** The extracted archive under [a.tempDir]: for each of the four files
    ([eventsFilename], [commitsFilename], [actorsFilename],
    [reposFilename]), what [os.Open] and the reads that follow give.  A
    file is opened again at each scan and gives the same reads every
    time. *)
Record App : Type := mkApp
  { eventsCsv : error + csvFile;
    commitsCsv : error + csvFile;
    actorsCsv : error + csvFile;
    reposCsv : error + csvFile }.

(** ** Counting ([countCommitsByEvent], [countUserRating],
       [countRepoRating]) *)

Fixpoint countCommitsLoop (eventID : string) (reads : csvFile)
    (wasHeaderRead : bool) (total : Z) : result Z :=
  match reads with
  | [] => Ok total
  | inl err :: _ => Err err
  | inr record :: reads' =>
      if negb wasHeaderRead then countCommitsLoop eventID reads' true total
      else
        commit <- NewCommitFromCSV record ;;
        if decide (Commit.EventID commit ≠ eventID)
        then countCommitsLoop eventID reads' true total
        else countCommitsLoop eventID reads' true (add64 total 1)
  end.

(** A failure of [os.Open] is answered with [return 0, nil]. *)
Definition countCommitsByEvent (a : App) (eventID : string) : result Z :=
  match commitsCsv a with
  | inl _ => Ok 0
  | inr reads => countCommitsLoop eventID reads false 0
  end.

Fixpoint countUserLoop (a : App) (userID : string) (reads : csvFile)
    (wasHeaderRead : bool) (totalCommits totalPREvents : Z)
    : result (Z * Z) :=
  match reads with
  | [] => Ok (totalCommits, totalPREvents)
  | inl err :: _ => Err err
  | inr record :: reads' =>
      if negb wasHeaderRead
      then countUserLoop a userID reads' true totalCommits totalPREvents
      else
        event <- NewEventFromCSV record ;;
        if decide (Event.ActorID event ≠ userID)
        then countUserLoop a userID reads' true totalCommits totalPREvents
        else if decide (Event.Type_ event = eventTypePush) then
          commitCount <- countCommitsByEvent a (Event.ID event) ;;
          countUserLoop a userID reads' true
            (add64 totalCommits commitCount) totalPREvents
        else if decide (Event.Type_ event = eventTypePullRequest) then
          countUserLoop a userID reads' true
            totalCommits (add64 totalPREvents 1)
        else countUserLoop a userID reads' true totalCommits totalPREvents
  end.

Definition countUserRating (a : App) (userID : string) : result (Z * Z) :=
  match eventsCsv a with
  | inl err => Err err
  | inr reads => countUserLoop a userID reads false 0 0
  end.

Fixpoint countRepoLoop (a : App) (repoID : string) (reads : csvFile)
    (wasHeaderRead : bool) (commitsPushed watchEvents : Z)
    : result (Z * Z) :=
  match reads with
  | [] => Ok (commitsPushed, watchEvents)
  | inl err :: _ => Err err
  | inr record :: reads' =>
      if negb wasHeaderRead
      then countRepoLoop a repoID reads' true commitsPushed watchEvents
      else
        event <- NewEventFromCSV record ;;
        if decide (Event.RepoID event ≠ repoID)
        then countRepoLoop a repoID reads' true commitsPushed watchEvents
        else if decide (Event.Type_ event = eventTypePush) then
          commitsByEvent <- countCommitsByEvent a (Event.ID event) ;;
          countRepoLoop a repoID reads' true
            (add64 commitsPushed commitsByEvent) watchEvents
        else if decide (Event.Type_ event = eventTypeWatch) then
          countRepoLoop a repoID reads' true
            commitsPushed (add64 watchEvents 1)
        else countRepoLoop a repoID reads' true commitsPushed watchEvents
  end.

Definition countRepoRating (a : App) (repoID : string) : result (Z * Z) :=
  match eventsCsv a with
  | inl err => Err err
  | inr reads => countRepoLoop a repoID reads false 0 0
  end.

(** ** Strategy A: one rescan of the events per table row *)

Fixpoint rateReposLoop (a : App) (reads : csvFile) (wasHeaderRead : bool)
    (commitsRating : Rating CommitRatableRepo.t)
    (watchRating : Rating WatchRatableRepo.t)
    : result (Rating CommitRatableRepo.t * Rating WatchRatableRepo.t) :=
  match reads with
  | [] => Ok (commitsRating, watchRating)
  | inl err :: _ => Err err
  | inr record :: reads' =>
      if negb wasHeaderRead
      then rateReposLoop a reads' true commitsRating watchRating
      else
        repo <- NewRepoFromCSV record ;;
        counts <- countRepoRating a (Repo.ID repo) ;;
        let '(commitsCount, watchCount) := counts in
        rateReposLoop a reads' true
          (snd (TryPush commitsRating
                  {| CommitRatableRepo.ID := Repo.ID repo;
                     CommitRatableRepo.Name := Repo.Name repo;
                     CommitRatableRepo.Commits := commitsCount |}))
          (snd (TryPush watchRating
                  {| WatchRatableRepo.ID := Repo.ID repo;
                     WatchRatableRepo.Name := Repo.Name repo;
                     WatchRatableRepo.WatchEvents := watchCount |}))
  end.

Definition rateReposByCommitsAndWatchesSpaceOptimized (a : App)
    : result (Rating CommitRatableRepo.t * Rating WatchRatableRepo.t) :=
  match reposCsv a with
  | inl err => Err err
  | inr reads => rateReposLoop a reads false (NewRating 10) (NewRating 10)
  end.

Fixpoint rateUsersLoop (a : App) (reads : csvFile) (wasHeaderRead : bool)
    (rating : Rating RatableUser.t) : result (Rating RatableUser.t) :=
  match reads with
  | [] => Ok rating
  | inl err :: _ => Err err
  | inr record :: reads' =>
      if negb wasHeaderRead then rateUsersLoop a reads' true rating
      else
        user <- NewUserFromCSV record ;;
        counts <- countUserRating a (User.ID user) ;;
        let '(commitCount, prCount) := counts in
        rateUsersLoop a reads' true
          (snd (TryPush rating
                  {| RatableUser.ID := User.ID user;
                     RatableUser.Username := User.Username user;
                     RatableUser.Commits := commitCount;
                     RatableUser.PREvents := prCount |}))
  end.

Definition rateUsersByPRsAndCommitsSpaceOptimized (a : App)
    : result (Rating RatableUser.t) :=
  match actorsCsv a with
  | inl err => Err err
  | inr reads => rateUsersLoop a reads false (NewRating 10)
  end.

(** The three ratings both strategies return: users, repositories by
    commits, repositories by watch events. *)
Definition Ratings : Type :=
  Rating RatableUser.t * Rating CommitRatableRepo.t
  * Rating WatchRatableRepo.t.

Definition SpaceOptimizedRatings (a : App) : result Ratings :=
  usersRating <- rateUsersByPRsAndCommitsSpaceOptimized a ;;
  repoRatings <- rateReposByCommitsAndWatchesSpaceOptimized a ;;
  Ok (usersRating, fst repoRatings, snd repoRatings).

(** ** Strategy B: one pass over the events *)

(** The two maps of [PerformanceOptimizedRatings]. *)
Abbreviation UserStats := (gmap string RatableUser.t).
Abbreviation RepoStats := (gmap string RepoWithCommitsAndWatches.t).

Fixpoint fillUsernamesLoop (reads : csvFile) (wasHeaderRead : bool)
    (users : UserStats) : result UserStats :=
  match reads with
  | [] => Ok users
  | inl err :: _ => Err err
  | inr record :: reads' =>
      if negb wasHeaderRead then fillUsernamesLoop reads' true users
      else
        user <- NewUserFromCSV record ;;
        match users !! User.ID user with
        | Some rUser =>
            fillUsernamesLoop reads' true
              (<[User.ID user :=
                   {| RatableUser.ID := RatableUser.ID rUser;
                      RatableUser.Username := User.ID user;
                      RatableUser.Commits := RatableUser.Commits rUser;
                      RatableUser.PREvents := RatableUser.PREvents rUser |}]>
                 users)
        | None => fillUsernamesLoop reads' true users
        end
  end.

Definition fillUsernames (a : App) (users : UserStats) : result UserStats :=
  match actorsCsv a with
  | inl err => Err err
  | inr reads => fillUsernamesLoop reads false users
  end.

Fixpoint fillRepoNamesLoop (reads : csvFile) (wasHeaderRead : bool)
    (repos : RepoStats) : result RepoStats :=
  match reads with
  | [] => Ok repos
  | inl err :: _ => Err err
  | inr record :: reads' =>
      if negb wasHeaderRead then fillRepoNamesLoop reads' true repos
      else
        repo <- NewRepoFromCSV record ;;
        match repos !! Repo.ID repo with
        | Some rRepo =>
            fillRepoNamesLoop reads' true
              (<[Repo.ID repo :=
                   {| RepoWithCommitsAndWatches.ID :=
                        RepoWithCommitsAndWatches.ID rRepo;
                      RepoWithCommitsAndWatches.Name := Repo.Name repo;
                      RepoWithCommitsAndWatches.Commits :=
                        RepoWithCommitsAndWatches.Commits rRepo;
                      RepoWithCommitsAndWatches.WatchEvents :=
                        RepoWithCommitsAndWatches.WatchEvents rRepo |}]>
                 repos)
        | None => fillRepoNamesLoop reads' true repos
        end
  end.

Definition fillRepoNames (a : App) (repos : RepoStats) : result RepoStats :=
  match reposCsv a with
  | inl err => Err err
  | inr reads => fillRepoNamesLoop reads false repos
  end.

(** [user.Commits += commitsCount], or the entry made at a first Push. *)
Definition addUserCommits (users : UserStats) (actorID : string)
    (commitsCount : Z) : UserStats :=
  match users !! actorID with
  | None =>
      <[actorID := {| RatableUser.ID := actorID;
                      RatableUser.Username := EmptyString;
                      RatableUser.Commits := commitsCount;
                      RatableUser.PREvents := 0 |}]> users
  | Some user =>
      <[actorID := {| RatableUser.ID := RatableUser.ID user;
                      RatableUser.Username := RatableUser.Username user;
                      RatableUser.Commits :=
                        add64 (RatableUser.Commits user) commitsCount;
                      RatableUser.PREvents := RatableUser.PREvents user |}]>
        users
  end.

Definition addRepoCommits (repos : RepoStats) (repoID : string)
    (commitsCount : Z) : RepoStats :=
  match repos !! repoID with
  | None =>
      <[repoID := {| RepoWithCommitsAndWatches.ID := repoID;
                     RepoWithCommitsAndWatches.Name := EmptyString;
                     RepoWithCommitsAndWatches.Commits := commitsCount;
                     RepoWithCommitsAndWatches.WatchEvents := 0 |}]> repos
  | Some repo =>
      <[repoID := {| RepoWithCommitsAndWatches.ID :=
                       RepoWithCommitsAndWatches.ID repo;
                     RepoWithCommitsAndWatches.Name :=
                       RepoWithCommitsAndWatches.Name repo;
                     RepoWithCommitsAndWatches.Commits :=
                       add64 (RepoWithCommitsAndWatches.Commits repo)
                         commitsCount;
                     RepoWithCommitsAndWatches.WatchEvents :=
                       RepoWithCommitsAndWatches.WatchEvents repo |}]> repos
  end.

(** [user.PREvents += 1], or the entry made at a first PullRequest. *)
Definition addUserPREvent (users : UserStats) (actorID : string)
    : UserStats :=
  match users !! actorID with
  | None =>
      <[actorID := {| RatableUser.ID := actorID;
                      RatableUser.Username := EmptyString;
                      RatableUser.Commits := 0;
                      RatableUser.PREvents := 1 |}]> users
  | Some user =>
      <[actorID := {| RatableUser.ID := RatableUser.ID user;
                      RatableUser.Username := RatableUser.Username user;
                      RatableUser.Commits := RatableUser.Commits user;
                      RatableUser.PREvents :=
                        add64 (RatableUser.PREvents user) 1 |}]> users
  end.

(** [repo.WatchEvents += 1], or the entry made at a first Watch. *)
Definition addRepoWatchEvent (repos : RepoStats) (repoID : string)
    : RepoStats :=
  match repos !! repoID with
  | None =>
      <[repoID := {| RepoWithCommitsAndWatches.ID := repoID;
                     RepoWithCommitsAndWatches.Name := EmptyString;
                     RepoWithCommitsAndWatches.Commits := 0;
                     RepoWithCommitsAndWatches.WatchEvents := 1 |}]> repos
  | Some repo =>
      <[repoID := {| RepoWithCommitsAndWatches.ID :=
                       RepoWithCommitsAndWatches.ID repo;
                     RepoWithCommitsAndWatches.Name :=
                       RepoWithCommitsAndWatches.Name repo;
                     RepoWithCommitsAndWatches.Commits :=
                       RepoWithCommitsAndWatches.Commits repo;
                     RepoWithCommitsAndWatches.WatchEvents :=
                       add64 (RepoWithCommitsAndWatches.WatchEvents repo) 1
                  |}]> repos
  end.

(** The [switch event.Type] of [PerformanceOptimizedRatings] on the two
    maps. *)
Definition processEvent (a : App) (event : Event.t)
    (users : UserStats) (repos : RepoStats)
    : result (UserStats * RepoStats) :=
  if decide (Event.Type_ event = eventTypePush) then
    commitsCount <- countCommitsByEvent a (Event.ID event) ;;
    Ok (addUserCommits users (Event.ActorID event) commitsCount,
        addRepoCommits repos (Event.RepoID event) commitsCount)
  else if decide (Event.Type_ event = eventTypePullRequest) then
    Ok (addUserPREvent users (Event.ActorID event), repos)
  else if decide (Event.Type_ event = eventTypeWatch) then
    Ok (users, addRepoWatchEvent repos (Event.RepoID event))
  else Ok (users, repos).

(** The loop over the events.  The error of [NewEventFromCSV] is not
    looked at: on a record of the wrong length [event] is nil and
    [event.ID], evaluated for the progress line, panics. *)
Fixpoint processEventsLoop (a : App) (reads : csvFile)
    (wasHeaderRead : bool) (users : UserStats) (repos : RepoStats)
    : result (UserStats * RepoStats) :=
  match reads with
  | [] => Ok (users, repos)
  | inl err :: _ => Err err
  | inr record :: reads' =>
      if negb wasHeaderRead
      then processEventsLoop a reads' true users repos
      else
        match NewEventFromCSV record with
        | Ok event =>
            st <- processEvent a event users repos ;;
            processEventsLoop a reads' true (fst st) (snd st)
        | _ => Panic
        end
  end.

(** The maps when the loop over the events is left. *)
Definition processEvents (a : App) : result (UserStats * RepoStats) :=
  match eventsCsv a with
  | inl err => Err err
  | inr reads => processEventsLoop a reads false ∅ ∅
  end.

(** The maps after the two name passes, as they are ranged over. *)
Definition PerformanceOptimizedStats (a : App)
    : result (UserStats * RepoStats) :=
  st <- processEvents a ;;
  users <- fillUsernames a (fst st) ;;
  repos <- fillRepoNames a (snd st) ;;
  Ok (users, repos).

Section RangeOrder.
(** The values of a map in the order a [range] statement visits them.
    Go leaves that order unspecified; it is a parameter here. *)
Variable rangeOrder : ∀ V : Type, gmap string V → list V.

Definition PerformanceOptimizedRatings (a : App) : result Ratings :=
  st <- PerformanceOptimizedStats a ;;
  let usersRating := TryPushAll (NewRating 10) (rangeOrder _ (fst st)) in
  let repoCommitsRating :=
    TryPushAll (NewRating 10)
      ((λ value,
          {| CommitRatableRepo.ID := RepoWithCommitsAndWatches.ID value;
             CommitRatableRepo.Name := RepoWithCommitsAndWatches.Name value;
             CommitRatableRepo.Commits :=
               RepoWithCommitsAndWatches.Commits value |})
         <$> rangeOrder _ (snd st)) in
  let repoWatchesRating :=
    TryPushAll (NewRating 10)
      ((λ value,
          {| WatchRatableRepo.ID := RepoWithCommitsAndWatches.ID value;
             WatchRatableRepo.Name := RepoWithCommitsAndWatches.Name value;
             WatchRatableRepo.WatchEvents :=
               RepoWithCommitsAndWatches.WatchEvents value |})
         <$> rangeOrder _ (snd st)) in
  Ok (usersRating, repoCommitsRating, repoWatchesRating).
End RangeOrder.

(** A visiting order that yields every entry once: the values by
    ascending key representation. *)
Definition keyOrder (V : Type) (m : gmap string V) : list V :=
  snd <$> map_to_list m.

(** ** Vocabulary of the properties *)

Section RatingVocabulary.
Context {A : Type} `{Ratable A}.

(** [item] does not strictly exceed [value]. *)
Definition not_above (item value : A) : Prop :=
  float64_gt (GetRating item) (GetRating value) = false.

(** The score of [x] is at least the score of [y]. *)
Definition score_ge (x y : A) : Prop :=
  SFleb (GetRating y) (GetRating x) = true.

(** The score of [x] is a number. *)
Definition scored (x : A) : Prop := GetRating x ≠ S754_nan.

(** Non-increasing by score. *)
Definition descending (l : list A) : Prop := StronglySorted score_ge l.

(** The specification's ranking of candidates: by descending score,
    and among equal scores the one offered earlier first.
    [spec_rank item l] places [item] in the ranked list [l] after every
    candidate whose score it does not strictly exceed. *)
Fixpoint spec_rank (item : A) (l : list A) : list A :=
  match l with
  | [] => [item]
  | value :: l' =>
      if float64_gt (GetRating item) (GetRating value)
      then item :: value :: l'
      else value :: spec_rank item l'
  end.

(** The specification's top-K of the candidates [offers], in the order
    they were offered. *)
Definition spec_topK (K : nat) (offers : list A) : list A :=
  take K (foldl (λ ranked item, spec_rank item ranked) [] offers).
End RatingVocabulary.

(** The counters of an id in the two maps; an id without an entry has
    counted nothing. *)
Definition userCommits (users : UserStats) (id : string) : Z :=
  from_option RatableUser.Commits 0 (users !! id).
Definition userPREvents (users : UserStats) (id : string) : Z :=
  from_option RatableUser.PREvents 0 (users !! id).
Definition repoCommits (repos : RepoStats) (id : string) : Z :=
  from_option RepoWithCommitsAndWatches.Commits 0 (repos !! id).
Definition repoWatchEvents (repos : RepoStats) (id : string) : Z :=
  from_option RepoWithCommitsAndWatches.WatchEvents 0 (repos !! id).

(** The number of commit rows whose third field, the event id, is
    [eventID]. *)
Definition matchingCommits (rows : list (list string)) (eventID : string)
    : Z :=
  Z.of_nat (length (filter (λ row, field row 2 = eventID) rows)).

(** The records among the reads of a file. *)
Definition records (reads : csvFile) : list (list string) :=
  omap (λ read, match read with inr record => Some record | inl _ => None end)
    reads.

(** The events decoded from the records among [reads]. *)
Definition eventsIn (reads : csvFile) : list Event.t :=
  omap (λ record, match NewEventFromCSV record with
                  | Ok event => Some event
                  | _ => None
                  end) (records reads).

(** The events of the event table: its records after the header, decoded. *)
Definition eventsOf (a : App) : list Event.t :=
  match eventsCsv a with
  | inr (_ :: reads) => eventsIn reads
  | _ => []
  end.

(** The events that count for a user, and those that count for a
    repository. *)
Definition countsForUser (event : Event.t) : Prop :=
  Event.Type_ event = eventTypePush
  ∨ Event.Type_ event = eventTypePullRequest.
Definition countsForRepo (event : Event.t) : Prop :=
  Event.Type_ event = eventTypePush ∨ Event.Type_ event = eventTypeWatch.

(** The name a repository entry carries after the rows [rows] of the
    repository table, from the name [name] before them: the name field of
    the last row with the entry's id. *)
Definition lastName (rows : list (list string)) (id name : string) : string :=
  foldl (λ name row, if decide (field row 0 = id) then field row 1 else name)
    name rows.

Definition withName (name : string) (repo : RepoWithCommitsAndWatches.t)
    : RepoWithCommitsAndWatches.t :=
  {| RepoWithCommitsAndWatches.ID := RepoWithCommitsAndWatches.ID repo;
     RepoWithCommitsAndWatches.Name := name;
     RepoWithCommitsAndWatches.Commits :=
       RepoWithCommitsAndWatches.Commits repo;
     RepoWithCommitsAndWatches.WatchEvents :=
       RepoWithCommitsAndWatches.WatchEvents repo |}.

Definition withUsername (name : string) (user : RatableUser.t)
    : RatableUser.t :=
  {| RatableUser.ID := RatableUser.ID user;
     RatableUser.Username := name;
     RatableUser.Commits := RatableUser.Commits user;
     RatableUser.PREvents := RatableUser.PREvents user |}.

(** The ids, first fields, of the rows [rows]. *)
Definition rowIDs (rows : list (list string)) : list string :=
  (λ row, field row 0) <$> rows.

(** ** Sample inputs *)

(** A repository candidate scoring [commits]. *)
Definition candidate (id : string) (commits : Z) : CommitRatableRepo.t :=
  {| CommitRatableRepo.ID := id;
     CommitRatableRepo.Name := EmptyString;
     CommitRatableRepo.Commits := commits |}.

(** The offers of the specification's scenario: scores 5, 3, 3, 8, 1. *)
Definition scenarioOffers : list CommitRatableRepo.t :=
  [candidate "a" 5; candidate "b" 3; candidate "c" 3; candidate "d" 8;
   candidate "e" 1].

(** A rating of capacity 3 holding one candidate. *)
Definition ratingOfOne : Rating CommitRatableRepo.t :=
  {| slice := [candidate "a" 5]; size := 3 |}.

Definition eventsHeader : error + list string :=
  inr ["id"; "type"; "actor_id"; "repo_id"].
Definition commitsHeader : error + list string :=
  inr ["sha"; "message"; "event_id"].
Definition actorsHeader : error + list string := inr ["id"; "username"].
Definition reposHeader : error + list string := inr ["id"; "name"].

Definition pushE1 : Event.t :=
  {| Event.ID := "e1"; Event.Type_ := eventTypePush;
     Event.ActorID := "u1"; Event.RepoID := "r1" |}.

Definition commitRowsE1 : list (list string) :=
  [["h1"; "m"; "e1"]; ["h2"; "m"; "e1"]].

(** The specification's scenario: one Push event with two commits. *)
Definition scenarioTables : App :=
  {| eventsCsv := inr [eventsHeader; inr ["e1"; "PushEvent"; "u1"; "r1"]];
     commitsCsv := inr (commitsHeader :: (inr <$> commitRowsE1));
     actorsCsv := inr [actorsHeader; inr ["u1"; "alice"]];
     reposCsv := inr [reposHeader; inr ["r1"; "one"]] |}.

(** A user of the user table that no event mentions. *)
Definition idleUserTables : App :=
  {| eventsCsv := inr [eventsHeader];
     commitsCsv := inr [commitsHeader];
     actorsCsv := inr [actorsHeader; inr ["u2"; "bob"]];
     reposCsv := inr [reposHeader] |}.

(** The commit table cannot be opened. *)
Definition unreadableCommitsTables : App :=
  {| eventsCsv := inr [eventsHeader; inr ["e1"; "PushEvent"; "u1"; "r1"]];
     commitsCsv := inl (ErrIO "open commits.csv: permission denied");
     actorsCsv := inr [actorsHeader; inr ["u1"; "alice"]];
     reposCsv := inr [reposHeader; inr ["r1"; "one"]] |}.

(** An event table of three columns. *)
Definition shortEventTables : App :=
  {| eventsCsv :=
       inr [inr ["id"; "type"; "actor_id"]; inr ["e1"; "PushEvent"; "u1"]];
     commitsCsv := inr [commitsHeader];
     actorsCsv := inr [actorsHeader];
     reposCsv := inr [reposHeader] |}.

(** The users map after one PullRequest event of user u1. *)
Definition usersOfU1 : UserStats :=
  {[ "u1" := {| RatableUser.ID := "u1"; RatableUser.Username := EmptyString;
                RatableUser.Commits := 0; RatableUser.PREvents := 1 |} ]}.

(** The repos map after one Watch event on repository r1. *)
Definition reposOfR1 : RepoStats :=
  {[ "r1" := {| RepoWithCommitsAndWatches.ID := "r1";
                RepoWithCommitsAndWatches.Name := EmptyString;
                RepoWithCommitsAndWatches.Commits := 0;
                RepoWithCommitsAndWatches.WatchEvents := 1 |} ]}.

(** User u1 is named alice, repository r1 is named one. *)
Definition namedTables : App :=
  {| eventsCsv :=
       inr [eventsHeader; inr ["e1"; "PullRequestEvent"; "u1"; "r1"];
            inr ["e2"; "WatchEvent"; "u1"; "r1"]];
     commitsCsv := inr [commitsHeader];
     actorsCsv := inr [actorsHeader; inr ["u1"; "alice"]];
     reposCsv := inr [reposHeader; inr ["r1"; "one"]] |}.

(** The two maps of the scenario when the pass over the events is
    through, and the maps after the name passes. *)
Definition scenarioUsersCounted : UserStats :=
  {[ "u1" := {| RatableUser.ID := "u1"; RatableUser.Username := EmptyString;
                RatableUser.Commits := 2; RatableUser.PREvents := 0 |} ]}.
Definition scenarioReposCounted : RepoStats :=
  {[ "r1" := {| RepoWithCommitsAndWatches.ID := "r1";
                RepoWithCommitsAndWatches.Name := EmptyString;
                RepoWithCommitsAndWatches.Commits := 2;
                RepoWithCommitsAndWatches.WatchEvents := 0 |} ]}.
Definition scenarioUsers : UserStats :=
  {[ "u1" := {| RatableUser.ID := "u1"; RatableUser.Username := "u1";
                RatableUser.Commits := 2; RatableUser.PREvents := 0 |} ]}.
Definition scenarioRepos : RepoStats :=
  {[ "r1" := {| RepoWithCommitsAndWatches.ID := "r1";
                RepoWithCommitsAndWatches.Name := "one";
                RepoWithCommitsAndWatches.Commits := 2;
                RepoWithCommitsAndWatches.WatchEvents := 0 |} ]}.

(** The integer a user is scored by: [u.PREvents + u.Commits]. *)
Definition userScore (u : RatableUser.t) : Z :=
  add64 (RatableUser.PREvents u) (RatableUser.Commits u).

(** A count that [float64] holds exactly. *)
Definition exact_count (n : Z) : Prop := (0 <= n < 2 ^ 53)%Z.

(** The fields a decoder read an entity from. *)
Definition eventFields (e : Event.t) : list string :=
  [Event.ID e; Event.Type_ e; Event.ActorID e; Event.RepoID e].
Definition userFields (u : User.t) : list string :=
  [User.ID u; User.Username u].
Definition commitFields (c : Commit.t) : list string :=
  [Commit.Hash c; Commit.Message c; Commit.EventID c].
Definition repoFields (r : Repo.t) : list string := [Repo.ID r; Repo.Name r].

(** The rows of a commit table: the records after the header. *)
Definition commitRowsOf (a : App) : list (list string) :=
  match commitsCsv a with
  | inr reads => tail (records reads)
  | inl _ => []
  end.

(** A table whose reads are all records and whose rows, the records
    after the header, have [n] fields each. *)
Definition tableOk (n : nat) (file : error + csvFile) : Prop :=
  ∃ recs : list (list string),
    file = inr (inr <$> recs) ∧ Forall (λ row, length row = n) (tail recs).

Definition sumZ (l : list Z) : Z := foldr Z.add 0 l.

(** The events of [events] with actor [id], and those on repository
    [id]. *)
Definition eventsOfActor (events : list Event.t) (id : string)
    : list Event.t :=
  filter (λ e, Event.ActorID e = id) events.
Definition eventsOnRepo (events : list Event.t) (id : string)
    : list Event.t :=
  filter (λ e, Event.RepoID e = id) events.

(** The number of events of type [type] among [events]. *)
Definition countOfType (type : string) (events : list Event.t) : Z :=
  Z.of_nat (length (filter (λ e, Event.Type_ e = type) events)).

(** The commit rows of the Push events among [events], counted event by
    event. *)
Definition commitsPushed (rows : list (list string))
    (events : list Event.t) : Z :=
  sumZ ((λ e, matchingCommits rows (Event.ID e))
          <$> filter (λ e, Event.Type_ e = eventTypePush) events).

(** Every entry of the users map carries its key as id and no username;
    the like for the repos map.  The single pass keeps both. *)
Definition usersFresh (users : UserStats) : Prop :=
  ∀ k u, users !! k = Some u →
         RatableUser.ID u = k ∧ RatableUser.Username u = EmptyString.
Definition reposFresh (repos : RepoStats) : Prop :=
  ∀ k r, repos !! k = Some r →
         RepoWithCommitsAndWatches.ID r = k
         ∧ RepoWithCommitsAndWatches.Name r = EmptyString.

(** The rows of a table: its records after the header. *)
Definition rowsOf (file : error + csvFile) : list (list string) :=
  match file with
  | inr reads => tail (records reads)
  | inl _ => []
  end.

(** A rating as the strategies return it: capacity 10, within it, and
    non-increasing by score. *)
Definition ranked {A : Type} `{Ratable A} (r : Rating A) : Prop :=
  size r = 10%nat ∧ (length (slice r) ≤ 10)%nat ∧ descending (slice r).

(** A [range] that yields only values of the map. *)
Definition rangeSound (rangeOrder : ∀ V : Type, gmap string V → list V)
    : Prop :=
  ∀ (V : Type) (m : gmap string V) (v : V),
    v ∈ rangeOrder V m → ∃ k, m !! k = Some v.

(** A rated user that stands for a row of [rows]: the row's id and
    username, and the counts a rescan of the events gives for the id.
    The like for a repository rated by commits and one rated by
    watches. *)
Definition ratedUser (a : App) (rows : list (list string))
    (u : RatableUser.t) : Prop :=
  ∃ row, row ∈ rows
         ∧ RatableUser.ID u = field row 0
         ∧ RatableUser.Username u = field row 1
         ∧ countUserRating a (RatableUser.ID u)
           = Ok (RatableUser.Commits u, RatableUser.PREvents u).
Definition ratedByCommits (a : App) (rows : list (list string))
    (c : CommitRatableRepo.t) : Prop :=
  ∃ row w, row ∈ rows
           ∧ CommitRatableRepo.ID c = field row 0
           ∧ CommitRatableRepo.Name c = field row 1
           ∧ countRepoRating a (CommitRatableRepo.ID c)
             = Ok (CommitRatableRepo.Commits c, w).
Definition ratedByWatches (a : App) (rows : list (list string))
    (w : WatchRatableRepo.t) : Prop :=
  ∃ row c, row ∈ rows
           ∧ WatchRatableRepo.ID w = field row 0
           ∧ WatchRatableRepo.Name w = field row 1
           ∧ countRepoRating a (WatchRatableRepo.ID w)
             = Ok (c, WatchRatableRepo.WatchEvents w).

(** The ratings of the scenario: by strategy A, and by strategy B with
    the maps ranged over by key. *)
Definition scenarioRatingsA : Ratings :=
  ({| slice := [{| RatableUser.ID := "u1"; RatableUser.Username := "alice";
                   RatableUser.Commits := 2; RatableUser.PREvents := 0 |}];
      size := 10 |},
   {| slice := [{| CommitRatableRepo.ID := "r1";
                   CommitRatableRepo.Name := "one";
                   CommitRatableRepo.Commits := 2 |}];
      size := 10 |},
   {| slice := [{| WatchRatableRepo.ID := "r1";
                   WatchRatableRepo.Name := "one";
                   WatchRatableRepo.WatchEvents := 0 |}];
      size := 10 |}).
Definition scenarioRatingsB : Ratings :=
  ({| slice := [{| RatableUser.ID := "u1"; RatableUser.Username := "u1";
                   RatableUser.Commits := 2; RatableUser.PREvents := 0 |}];
      size := 10 |},
   {| slice := [{| CommitRatableRepo.ID := "r1";
                   CommitRatableRepo.Name := "one";
                   CommitRatableRepo.Commits := 2 |}];
      size := 10 |},
   {| slice := [{| WatchRatableRepo.ID := "r1";
                   WatchRatableRepo.Name := "one";
                   WatchRatableRepo.WatchEvents := 0 |}];
      size := 10 |}).

(** The scenario with a Watch event before the Push event, and with the
    two events the other way round. *)
Definition watchThenPushTables : App :=
  {| eventsCsv := inr [eventsHeader; inr ["e2"; "WatchEvent"; "u2"; "r1"];
                       inr ["e1"; "PushEvent"; "u1"; "r1"]];
     commitsCsv := inr (commitsHeader :: (inr <$> commitRowsE1));
     actorsCsv := inr [actorsHeader; inr ["u1"; "alice"]];
     reposCsv := inr [reposHeader; inr ["r1"; "one"]] |}.
Definition pushThenWatchTables : App :=
  {| eventsCsv := inr [eventsHeader; inr ["e1"; "PushEvent"; "u1"; "r1"];
                       inr ["e2"; "WatchEvent"; "u2"; "r1"]];
     commitsCsv := inr (commitsHeader :: (inr <$> commitRowsE1));
     actorsCsv := inr [actorsHeader; inr ["u1"; "alice"]];
     reposCsv := inr [reposHeader; inr ["r1"; "one"]] |}.

(** A commit table of two columns: header and rows lack the event id. *)
Definition narrowCommitsTables : App :=
  {| eventsCsv := inr [eventsHeader; inr ["e1"; "PushEvent"; "u1"; "r1"]];
     commitsCsv :=
       inr [inr ["sha"; "message"]; inr ["h1"; "m"]; inr ["h2"; "m"]];
     actorsCsv := inr [actorsHeader];
     reposCsv := inr [reposHeader] |}.

(** A commit table whose third line is cut short: the reader reports it
    as a failed read. *)
Definition cutCommitsTables : App :=
  {| eventsCsv := inr [eventsHeader; inr ["e1"; "PushEvent"; "u1"; "r1"]];
     commitsCsv :=
       inr (inr ["sha"; "message"; "event_id"]
              :: (inr <$> [["h1"; "m"; "e1"]])
              ++ inl (ErrIO "record on line 3: wrong number of fields")
              :: [inr ["h3"; "m"; "e1"]]);
     actorsCsv := inr [actorsHeader];
     reposCsv := inr [reposHeader] |}.

(** One Watch event, of user u1 on repository r1. *)
Definition watchOnlyTables : App :=
  {| eventsCsv := inr [eventsHeader; inr ["e2"; "WatchEvent"; "u1"; "r1"]];
     commitsCsv := inr [commitsHeader];
     actorsCsv := inr [actorsHeader; inr ["u1"; "alice"]];
     reposCsv := inr [reposHeader; inr ["r1"; "one"]] |}.

(** The specification's words on the records of the single pass: an
    event of one of the three types that are consumed, and an event that
    refers to an id, as its actor or as its repository. *)
Definition relevantEvent (event : Event.t) : Prop :=
  Event.Type_ event = eventTypePush
  ∨ Event.Type_ event = eventTypePullRequest
  ∨ Event.Type_ event = eventTypeWatch.
Definition refersTo (event : Event.t) (id : string) : Prop :=
  Event.ActorID event = id ∨ Event.RepoID event = id.

(** * Properties *)

(** ** Record decoders *)

Lemma NewEventFromCSV_fields (c0 c1 c2 c3 : string) :
  NewEventFromCSV [c0; c1; c2; c3] =
  Ok {| Event.ID := c0; Event.Type_ := c1;
        Event.ActorID := c2; Event.RepoID := c3 |}.
Proof. reflexivity. Qed.

Lemma NewEventFromCSV_Err (csv : list string) (e : error) :
  NewEventFromCSV csv = Err e ↔ length csv ≠ 4%nat ∧ e = ErrInvalidEventCSV.
Proof.
  unfold NewEventFromCSV. case_decide; split.
  - intros [= <-]. done.
  - intros [_ ->]. done.
  - discriminate.
  - intros [? _]. done.
Qed.

Lemma NewUserFromCSV_Err (csv : list string) (e : error) :
  NewUserFromCSV csv = Err e ↔ length csv ≠ 2%nat ∧ e = ErrInvalidUserCSV.
Proof.
  unfold NewUserFromCSV. case_decide; split.
  - intros [= <-]. done.
  - intros [_ ->]. done.
  - discriminate.
  - intros [? _]. done.
Qed.

Lemma NewCommitFromCSV_Err (csv : list string) (e : error) :
  NewCommitFromCSV csv = Err e ↔ length csv ≠ 3%nat ∧ e = ErrInvalidCommitCSV.
Proof.
  unfold NewCommitFromCSV. case_decide; split.
  - intros [= <-]. done.
  - intros [_ ->]. done.
  - discriminate.
  - intros [? _]. done.
Qed.

Lemma NewRepoFromCSV_Err (csv : list string) (e : error) :
  NewRepoFromCSV csv = Err e ↔ length csv ≠ 2%nat ∧ e = ErrInvalidRepoCSV.
Proof.
  unfold NewRepoFromCSV. case_decide; split.
  - intros [= <-]. done.
  - intros [_ ->]. done.
  - discriminate.
  - intros [? _]. done.
Qed.

(** C9.  Each decoder fails, with the error of its entity, exactly on a
    field list whose length is not the entity's arity (Event 4, User 2,
    Commit 3, Repo 2); on a list of that length it returns the entity
    whose fields are the strings in their order, whatever they are. *)
Theorem decoders_check_arity_only :
  (∀ csv e, NewEventFromCSV csv = Err e
            ↔ length csv ≠ 4%nat ∧ e = ErrInvalidEventCSV)
  ∧ (∀ csv e, NewUserFromCSV csv = Err e
              ↔ length csv ≠ 2%nat ∧ e = ErrInvalidUserCSV)
  ∧ (∀ csv e, NewCommitFromCSV csv = Err e
              ↔ length csv ≠ 3%nat ∧ e = ErrInvalidCommitCSV)
  ∧ (∀ csv e, NewRepoFromCSV csv = Err e
              ↔ length csv ≠ 2%nat ∧ e = ErrInvalidRepoCSV)
  ∧ (∀ c0 c1 c2 c3,
       NewEventFromCSV [c0; c1; c2; c3] =
       Ok {| Event.ID := c0; Event.Type_ := c1;
             Event.ActorID := c2; Event.RepoID := c3 |})
  ∧ (∀ c0 c1,
       NewUserFromCSV [c0; c1] = Ok {| User.ID := c0; User.Username := c1 |})
  ∧ (∀ c0 c1 c2,
       NewCommitFromCSV [c0; c1; c2] =
       Ok {| Commit.Hash := c0; Commit.Message := c1;
             Commit.EventID := c2 |})
  ∧ (∀ c0 c1,
       NewRepoFromCSV [c0; c1] = Ok {| Repo.ID := c0; Repo.Name := c1 |}).
Proof.
  repeat apply conj; intros; try reflexivity.
  - apply NewEventFromCSV_Err.
  - apply NewUserFromCSV_Err.
  - apply NewCommitFromCSV_Err.
  - apply NewRepoFromCSV_Err.
Qed.

(** The decoders never panic. *)
Lemma NewEventFromCSV_no_panic (csv : list string) :
  NewEventFromCSV csv ≠ Panic.
Proof. unfold NewEventFromCSV. by case_decide. Qed.

(** ** The ranking structure *)

Lemma insert_in_range {A : Type} (a : list A) (index : nat) (value : A) :
  (index ≤ length a)%nat →
  insert a index value = take index a ++ value :: drop index a.
Proof.
  intros Hle. unfold insert. case_decide as Hlen.
  - subst index. by rewrite firstn_all, drop_all.
  - assert (Hlt : (index < length a)%nat) by lia.
    destruct (lookup_lt_is_Some_2 a index Hlt) as [x Hx].
    replace (index + 1)%nat with (S index) by lia.
    rewrite (take_S_r a index x Hx), <- app_assoc. simpl.
    rewrite insert_app_r_alt by (rewrite length_take; lia).
    rewrite length_take, Nat.min_l, Nat.sub_diag by lia.
    reflexivity.
Qed.

Section RatingFacts.
Context {A : Type} `{Ratable A}.

Lemma scan_None (item : A) (values : list A) (i : nat) :
  scan item values i = None ↔ Forall (not_above item) values.
Proof.
  revert i. induction values as [|value values IH]; intros i; simpl.
  - split; [constructor | done].
  - destruct (float64_gt (GetRating item) (GetRating value)) eqn:Hgt.
    + split; [done |]. inversion 1; subst. unfold not_above in *. congruence.
    + rewrite IH. split.
      * by constructor.
      * by inversion 1.
Qed.

Lemma scan_Some (item : A) (values : list A) (i j : nat) :
  scan item values i = Some j ↔
  ∃ front value back,
    values = front ++ value :: back ∧ j = (i + length front)%nat
    ∧ Forall (not_above item) front
    ∧ float64_gt (GetRating item) (GetRating value) = true.
Proof.
  revert i. induction values as [|v values IH]; intros i; simpl.
  - split; [done |]. intros (front & ? & ? & Heq & _).
    by destruct front.
  - destruct (float64_gt (GetRating item) (GetRating v)) eqn:Hgt.
    + split.
      * intros [= <-]. exists [], v, values. simpl.
        repeat split; [f_equal; lia | constructor | done].
      * intros (front & value & back & Heq & -> & Hfront & _).
        destruct front as [|w front]; simpl in *.
        -- f_equal; lia.
        -- injection Heq as <- _. inversion Hfront; subst.
           unfold not_above in *. congruence.
    + rewrite IH. split.
      * intros (front & value & back & -> & -> & Hfront & Hv).
        exists (v :: front), value, back. simpl.
        repeat split; [lia | by constructor | done].
      * intros (front & value & back & Heq & -> & Hfront & Hv).
        destruct front as [|w front]; simpl in *.
        -- injection Heq as -> _. congruence.
        -- injection Heq as <- ->. inversion Hfront; subst.
           exists front, value, back. repeat split; [lia | done..].
Qed.

(** An offer into an empty sequence is appended, whatever the
    capacity. *)
Lemma TryPush_empty (r : Rating A) (item : A) :
  slice r = [] →
  TryPush r item = (true, {| slice := [item]; size := size r |}).
Proof. intros Hs. unfold TryPush. rewrite Hs. reflexivity. Qed.

(** The item goes immediately before the first held value it strictly
    exceeds, and the sequence is cut back to the capacity. *)
Lemma TryPush_accept (r : Rating A) (item : A)
    (front : list A) (value : A) (back : list A) :
  slice r = front ++ value :: back →
  Forall (not_above item) front →
  float64_gt (GetRating item) (GetRating value) = true →
  TryPush r item =
  (true, {| slice := take (size r) (front ++ item :: value :: back);
            size := size r |}).
Proof.
  intros Hs Hfront Hv. unfold TryPush.
  case_decide as Hlen.
  { rewrite Hs, length_app in Hlen. simpl in Hlen. lia. }
  assert (Hscan : scan item (slice r) 0 = Some (length front)).
  { apply scan_Some. by exists front, value, back. }
  rewrite Hscan, insert_in_range by (rewrite Hs, length_app; lia).
  rewrite Hs, take_app_length, drop_app_length.
  case_decide as Hcut; [done |].
  by rewrite take_ge by lia.
Qed.

(** With a held value or more and none that the item strictly exceeds,
    the offer is refused, at capacity or below it. *)
Lemma TryPush_reject (r : Rating A) (item : A) :
  slice r ≠ [] →
  Forall (not_above item) (slice r) →
  TryPush r item = (false, r).
Proof.
  intros Hne Hall. unfold TryPush.
  case_decide as Hlen.
  { by apply length_zero_iff_nil in Hlen. }
  apply scan_None with (i := 0%nat) in Hall. by rewrite Hall.
Qed.

(** The offers that are refused. *)
Lemma TryPush_false_iff (r : Rating A) (item : A) :
  fst (TryPush r item) = false ↔
  slice r ≠ [] ∧ Forall (not_above item) (slice r).
Proof.
  split.
  - unfold TryPush. case_decide as Hlen; [done |].
    destruct (scan item (slice r) 0) eqn:Hscan; [done |].
    intros _. split.
    + intros Hs. by rewrite Hs in Hlen.
    + by apply scan_None in Hscan.
  - intros [Hne Hall]. by rewrite TryPush_reject.
Qed.

Lemma spec_rank_above (item : A) (front : list A) (value : A)
    (back : list A) :
  Forall (not_above item) front →
  float64_gt (GetRating item) (GetRating value) = true →
  spec_rank item (front ++ value :: back) = front ++ item :: value :: back.
Proof.
  intros Hfront Hv. induction Hfront as [|v front Hvn _ IH]; simpl.
  - by rewrite Hv.
  - unfold not_above in Hvn. by rewrite Hvn, IH.
Qed.

Lemma spec_rank_last (item : A) (l : list A) :
  Forall (not_above item) l → spec_rank item l = l ++ [item].
Proof.
  induction 1 as [|v l Hvn _ IH]; simpl; [done |].
  unfold not_above in Hvn. by rewrite Hvn, IH.
Qed.

(** From capacity 1 on, an offer that is accepted, and any offer into a
    sequence at capacity, leaves the first [size r] items of the
    specification's ranking of the item among the held ones. *)
Lemma TryPush_spec_rank (r : Rating A) (item : A) :
  (1 ≤ size r)%nat →
  fst (TryPush r item) = true ∨ length (slice r) = size r →
  slice (snd (TryPush r item)) = take (size r) (spec_rank item (slice r)).
Proof.
  intros Hsize Hcase.
  destruct (decide (slice r = [])) as [Hnil | Hne].
  { rewrite TryPush_empty by done. rewrite Hnil. simpl.
    by rewrite take_ge by (simpl; lia). }
  destruct (scan item (slice r) 0) as [i|] eqn:Hscan.
  - apply scan_Some in Hscan
      as (front & value & back & Hs & _ & Hfront & Hv).
    rewrite (TryPush_accept r item front value back) by done. simpl.
    by rewrite Hs, spec_rank_above.
  - apply scan_None in Hscan.
    rewrite TryPush_reject in * by done. simpl in *.
    destruct Hcase as [? | Hfull]; [done |].
    rewrite spec_rank_last by done.
    by rewrite <- Hfull, take_app_length.
Qed.

(** C10.  A call of [TryPush] that returns false leaves the receiver as
    it was: same held sequence, same capacity, whether the sequence was
    at capacity or below it. *)
Theorem TryPush_false_unchanged (r : Rating A) (item : A) :
  fst (TryPush r item) = false → snd (TryPush r item) = r.
Proof.
  unfold TryPush. case_decide; [discriminate |].
  by destruct (scan item (slice r) 0).
Qed.

(** From capacity 1 on the held sequence stays within the capacity. *)
Lemma TryPush_length (r : Rating A) (item : A) :
  (1 ≤ size r)%nat →
  (length (slice r) ≤ size r)%nat →
  (length (slice (snd (TryPush r item))) ≤ size r)%nat.
Proof.
  intros Hsize Hlen. unfold TryPush.
  case_decide as Hz; simpl.
  - rewrite length_app. simpl. lia.
  - destruct (scan item (slice r) 0); simpl; [| done].
    case_decide; [| lia]. rewrite length_take. lia.
Qed.

Lemma TryPush_size (r : Rating A) (item : A) :
  size (snd (TryPush r item)) = size r.
Proof.
  unfold TryPush. case_decide; [done |].
  by destruct (scan item (slice r) 0).
Qed.

Lemma TryPushAll_size (items : list A) (r : Rating A) :
  size (TryPushAll r items) = size r.
Proof.
  revert r. induction items as [|item items IH]; intros r; [done |].
  unfold TryPushAll in *. simpl. by rewrite IH, TryPush_size.
Qed.

Lemma TryPushAll_length (items : list A) (r : Rating A) :
  (1 ≤ size r)%nat →
  (length (slice r) ≤ size r)%nat →
  (length (slice (TryPushAll r items)) ≤ size r)%nat.
Proof.
  revert r. induction items as [|item items IH]; intros r Hsize Hlen;
    [done |].
  unfold TryPushAll in *. simpl.
  pose proof (TryPush_length r item Hsize Hlen) as Hstep.
  pose proof (TryPush_size r item) as Hsz.
  specialize (IH (snd (TryPush r item))). rewrite Hsz in IH.
  by apply IH.
Qed.
End RatingFacts.

(** ** Order of the scores *)

Ltac compare_cases :=
  repeat match goal with
  | H : context [(?a ?= ?b)%Z] |- _ => destruct (Z.compare_spec a b); subst
  | |- context [(?a ?= ?b)%Z] => destruct (Z.compare_spec a b); subst
  | H : context [Pos.compare_cont Eq ?a ?b] |- _ =>
      change (Pos.compare_cont Eq a b) with (Pos.compare a b) in H
  | |- context [Pos.compare_cont Eq ?a ?b] =>
      change (Pos.compare_cont Eq a b) with (Pos.compare a b)
  | H : context [(?a ?= ?b)%positive] |- _ =>
      destruct (Pos.compare_spec a b); subst
  | |- context [(?a ?= ?b)%positive] =>
      destruct (Pos.compare_spec a b); subst
  end.

Lemma SFltb_SFleb (x y : float64) : SFltb x y = true → SFleb x y = true.
Proof. unfold SFltb, SFleb. by destruct (SFcompare x y) as [[]|]. Qed.

Lemma SFltb_false_SFleb (x y : float64) :
  x ≠ S754_nan → y ≠ S754_nan → SFltb y x = false → SFleb x y = true.
Proof.
  unfold SFltb, SFleb, SFcompare.
  destruct x as [[]|[]| |[] ? ?], y as [[]|[]| |[] ? ?]; simpl; try done;
    intros _ _; compare_cases; simpl; try done; try lia.
Qed.

Lemma SFleb_trans (x y z : float64) :
  SFleb x y = true → SFleb y z = true → SFleb x z = true.
Proof.
  unfold SFleb, SFcompare.
  destruct x as [[]|[]| |[] ? ?], y as [[]|[]| |[] ? ?],
    z as [[]|[]| |[] ? ?]; simpl; try done;
    intros; compare_cases; simpl in *; try done; try lia.
Qed.

Section Descending.
Context {A : Type} `{Ratable A}.

#[local] Instance score_ge_trans : Transitive (score_ge (A := A)).
Proof. intros x y z Hxy Hyz. unfold score_ge in *. by eapply SFleb_trans. Qed.

Lemma not_above_score_ge (item value : A) :
  scored item → scored value → not_above item value → score_ge value item.
Proof.
  unfold scored, not_above, score_ge, float64_gt.
  intros. by apply SFltb_false_SFleb.
Qed.

Lemma above_score_ge (item value : A) :
  float64_gt (GetRating item) (GetRating value) = true →
  score_ge item value.
Proof. unfold score_ge, float64_gt. apply SFltb_SFleb. Qed.

Lemma descending_take (n : nat) (l : list A) :
  descending l → descending (take n l).
Proof.
  unfold descending. intros Hl.
  rewrite <- (take_drop n l) in Hl. by eapply StronglySorted_app_1_l.
Qed.

(** Offering a candidate keeps the held sequence non-increasing by
    score, as long as the scores are numbers. *)
Lemma TryPush_descending (r : Rating A) (item : A) :
  scored item → Forall scored (slice r) →
  descending (slice r) → descending (slice (snd (TryPush r item))).
Proof.
  intros Hitem Hheld Hsorted.
  destruct (decide (slice r = [])) as [Hnil | Hne].
  { rewrite TryPush_empty by done. simpl.
    repeat constructor. }
  destruct (scan item (slice r) 0) as [i|] eqn:Hscan.
  - apply scan_Some in Hscan
      as (front & value & back & Hs & _ & Hfront & Hv).
    rewrite (TryPush_accept r item front value back) by done. simpl.
    apply descending_take. unfold descending in *. rewrite Hs in *.
    apply StronglySorted_app in Hsorted as (Hfb & Hf & Hb).
    apply StronglySorted_app. split_and!; [| done |].
    + intros x1 x2 Hx1 Hx2.
      apply elem_of_cons in Hx2 as [-> | Hx2]; [| by apply Hfb].
      apply not_above_score_ge; [done | |].
      * rewrite Forall_forall in Hheld. apply Hheld. set_solver.
      * rewrite Forall_forall in Hfront. by apply Hfront.
    + apply StronglySorted_cons. split; [| done].
      apply StronglySorted_cons in Hb as [Hvb _].
      apply Forall_cons. split; [by apply above_score_ge |].
      eapply Forall_impl; [exact Hvb |]. intros b Hb'. simpl in Hb'.
      etrans; [| exact Hb']. by apply above_score_ge.
  - apply scan_None in Hscan. by rewrite TryPush_reject.
Qed.

Lemma TryPush_scored (r : Rating A) (item : A) :
  scored item → Forall scored (slice r) →
  Forall scored (slice (snd (TryPush r item))).
Proof.
  intros Hitem Hheld.
  destruct (decide (slice r = [])) as [Hnil | Hne].
  { rewrite TryPush_empty by done. simpl. by repeat constructor. }
  destruct (scan item (slice r) 0) as [i|] eqn:Hscan.
  - apply scan_Some in Hscan
      as (front & value & back & Hs & _ & Hfront & Hv).
    rewrite (TryPush_accept r item front value back) by done. simpl.
    apply Forall_take. rewrite Hs in Hheld.
    apply Forall_app in Hheld as [Hf Hb].
    apply Forall_app. split; [done |]. by constructor.
  - apply scan_None in Hscan. by rewrite TryPush_reject.
Qed.

(** After any sequence of offers of numbered scores into a new
    [Rating], the held sequence is non-increasing by score. *)
Lemma TryPushAll_descending (items : list A) (r : Rating A) :
  Forall scored items → Forall scored (slice r) → descending (slice r) →
  descending (slice (TryPushAll r items)).
Proof.
  revert r. induction items as [|item items IH]; intros r Hitems Hheld Hs;
    [done |].
  apply Forall_cons in Hitems as [Hitem Hitems].
  unfold TryPushAll in *. simpl. apply IH; [done | |].
  - by apply TryPush_scored.
  - by apply TryPush_descending.
Qed.
End Descending.

(** ** 64-bit counters *)

Lemma wrap64_id (z : Z) : in_int64 z → wrap64 z = z.
Proof.
  unfold in_int64, int64_min, int64_max, wrap64. intros Hz.
  rewrite Z.mod_small; lia.
Qed.

Lemma wrap64_in_int64 (z : Z) : in_int64 (wrap64 z).
Proof.
  unfold in_int64, int64_min, int64_max, wrap64.
  pose proof (Z.mod_pos_bound (z + 2 ^ 63) (2 ^ 64)). lia.
Qed.

Lemma wrap64_add_l (x y : Z) : wrap64 (wrap64 x + y) = wrap64 (x + y).
Proof.
  unfold wrap64. f_equal.
  replace ((x + 2 ^ 63) mod 2 ^ 64 - 2 ^ 63 + y + 2 ^ 63)
    with ((x + 2 ^ 63) mod 2 ^ 64 + y) by lia.
  rewrite Zplus_mod_idemp_l. f_equal. lia.
Qed.

(** [+=] is the addition wherever the sum fits. *)
Lemma add64_exact (x y : Z) : in_int64 (x + y) → add64 x y = x + y.
Proof. apply wrap64_id. Qed.

Lemma add64_0_l (x : Z) : in_int64 x → add64 0 x = x.
Proof. intros. unfold add64. by rewrite Z.add_0_l, wrap64_id. Qed.

(** ** Counting the commits of an event *)

Lemma countCommitsLoop_in_int64 (eventID : string) (reads : csvFile)
    (wasHeaderRead : bool) (total c : Z) :
  in_int64 total →
  countCommitsLoop eventID reads wasHeaderRead total = Ok c → in_int64 c.
Proof.
  revert wasHeaderRead total.
  induction reads as [|[err | record] reads IH]; intros hdr total Ht; simpl.
  - by intros [= <-].
  - discriminate.
  - destruct hdr; simpl; [| by apply IH].
    destruct (NewCommitFromCSV record) as [commit | |]; simpl;
      [| discriminate..].
    case_decide; apply IH; [done |]. apply wrap64_in_int64.
Qed.

Lemma countCommitsByEvent_in_int64 (a : App) (eventID : string) (c : Z) :
  countCommitsByEvent a eventID = Ok c → in_int64 c.
Proof.
  unfold countCommitsByEvent. destruct (commitsCsv a) as [err | reads].
  - intros [= <-]. by vm_compute.
  - apply countCommitsLoop_in_int64. by vm_compute.
Qed.

Lemma countCommitsLoop_rows (eventID : string) (rows : list (list string))
    (total : Z) :
  Forall (λ row, length row = 3%nat) rows →
  in_int64 total →
  countCommitsLoop eventID (inr <$> rows) true total =
  Ok (wrap64 (total + matchingCommits rows eventID)).
Proof.
  unfold matchingCommits. intros Hrows. revert total.
  induction Hrows as [|row rows Hrow Hrows IH]; intros total Ht; simpl.
  - by rewrite Z.add_0_r, wrap64_id.
  - unfold NewCommitFromCSV. case_decide; [done |]. simpl.
    rewrite filter_cons. case_decide as Hid; case_decide; try done.
    + rewrite IH by done. done.
    + rewrite IH by apply wrap64_in_int64. unfold add64.
      rewrite wrap64_add_l. simpl length. do 2 f_equal. lia.
Qed.

(** On a commit table that reads and decodes, [countCommitsByEvent]
    returns the number of rows of the event among the records after the
    header. *)
Lemma countCommitsByEvent_count (a : App) (eventID : string)
    (recs : list (list string)) :
  commitsCsv a = inr (inr <$> recs) →
  Forall (λ row, length row = 3%nat) (tail recs) →
  (Z.of_nat (length (tail recs)) ≤ int64_max)%Z →
  countCommitsByEvent a eventID = Ok (matchingCommits (tail recs) eventID).
Proof.
  intros Hfile Hrows Hmax. unfold countCommitsByEvent. rewrite Hfile.
  destruct recs as [|header rows]; [done |]. simpl in *.
  rewrite countCommitsLoop_rows by (done || by vm_compute).
  rewrite Z.add_0_l, wrap64_id; [done |].
  unfold matchingCommits, in_int64, int64_min.
  pose proof (length_filter (λ row, field row 2 = eventID) rows). lia.
Qed.

(** ** What one event changes in the two maps *)

Ltac stats_lookup :=
  unfold userCommits, userPREvents, repoCommits, repoWatchEvents,
    addUserCommits, addUserPREvent, addRepoCommits, addRepoWatchEvent;
  intros;
  repeat match goal with
  | |- context [match ?m !! ?k with _ => _ end] =>
      let E := fresh "E" in destruct (m !! k) eqn:E
  end;
  repeat case_decide; subst;
  rewrite ?lookup_insert_eq, ?lookup_insert_ne by done; simpl;
  repeat match goal with
  | E : ?m !! ?k = _ |- context [?m !! ?k] => rewrite E
  end; simpl; try done.

Lemma userCommits_addUserCommits (users : UserStats) (actor id : string)
    (c : Z) :
  in_int64 c →
  userCommits (addUserCommits users actor c) id =
  if decide (id = actor) then add64 (userCommits users id) c
  else userCommits users id.
Proof. stats_lookup. by rewrite add64_0_l. Qed.

Lemma userPREvents_addUserCommits (users : UserStats) (actor id : string)
    (c : Z) :
  userPREvents (addUserCommits users actor c) id = userPREvents users id.
Proof.
  destruct (decide (id = actor)) as [-> |]; stats_lookup.
Qed.

Lemma userPREvents_addUserPREvent (users : UserStats) (actor id : string) :
  userPREvents (addUserPREvent users actor) id =
  if decide (id = actor) then add64 (userPREvents users id) 1
  else userPREvents users id.
Proof. stats_lookup. Qed.

Lemma userCommits_addUserPREvent (users : UserStats) (actor id : string) :
  userCommits (addUserPREvent users actor) id = userCommits users id.
Proof.
  destruct (decide (id = actor)) as [-> |]; stats_lookup.
Qed.

Lemma repoCommits_addRepoCommits (repos : RepoStats) (repo id : string)
    (c : Z) :
  in_int64 c →
  repoCommits (addRepoCommits repos repo c) id =
  if decide (id = repo) then add64 (repoCommits repos id) c
  else repoCommits repos id.
Proof. stats_lookup. by rewrite add64_0_l. Qed.

Lemma repoWatchEvents_addRepoCommits (repos : RepoStats) (repo id : string)
    (c : Z) :
  repoWatchEvents (addRepoCommits repos repo c) id = repoWatchEvents repos id.
Proof.
  destruct (decide (id = repo)) as [-> |]; stats_lookup.
Qed.

Lemma repoWatchEvents_addRepoWatchEvent (repos : RepoStats)
    (repo id : string) :
  repoWatchEvents (addRepoWatchEvent repos repo) id =
  if decide (id = repo) then add64 (repoWatchEvents repos id) 1
  else repoWatchEvents repos id.
Proof. stats_lookup. Qed.

Lemma repoCommits_addRepoWatchEvent (repos : RepoStats) (repo id : string) :
  repoCommits (addRepoWatchEvent repos repo) id = repoCommits repos id.
Proof.
  destruct (decide (id = repo)) as [-> |]; stats_lookup.
Qed.

(** C5.  What [processEvent], the body of the single pass, does with one
    event on the counters of every id:
    - a Push event, on a commit table whose reads are the records [recs]
      and whose rows [tail recs], after the header, decode, adds the
      number of commit rows carrying the event's id to the commits of the
      actor and to the commits of the repository, the same number, and
      changes no other counter;
    - a PullRequest event adds 1 to the pull-request events of the actor
      and changes nothing else;
    - a Watch event adds 1 to the watch events of the repository and
      changes nothing else;
    - an event of another type leaves both maps as they are.
    Adding is the [int64] addition [add64]. *)
Theorem processEvent_contribution (a : App) (event : Event.t)
    (users : UserStats) (repos : RepoStats) :
  (Event.Type_ event = eventTypePush →
   ∀ recs : list (list string),
     commitsCsv a = inr (inr <$> recs) →
     Forall (λ row, length row = 3%nat) (tail recs) →
     (Z.of_nat (length (tail recs)) ≤ int64_max)%Z →
     ∃ users' repos',
       processEvent a event users repos = Ok (users', repos')
       ∧ ∀ id,
           userCommits users' id =
             (if decide (id = Event.ActorID event)
              then add64 (userCommits users id)
                     (matchingCommits (tail recs) (Event.ID event))
              else userCommits users id)
           ∧ userPREvents users' id = userPREvents users id
           ∧ repoCommits repos' id =
               (if decide (id = Event.RepoID event)
                then add64 (repoCommits repos id)
                       (matchingCommits (tail recs) (Event.ID event))
                else repoCommits repos id)
           ∧ repoWatchEvents repos' id = repoWatchEvents repos id)
  ∧ (Event.Type_ event = eventTypePullRequest →
     ∃ users',
       processEvent a event users repos = Ok (users', repos)
       ∧ ∀ id,
           userPREvents users' id =
             (if decide (id = Event.ActorID event)
              then add64 (userPREvents users id) 1
              else userPREvents users id)
           ∧ userCommits users' id = userCommits users id)
  ∧ (Event.Type_ event = eventTypeWatch →
     ∃ repos',
       processEvent a event users repos = Ok (users, repos')
       ∧ ∀ id,
           repoWatchEvents repos' id =
             (if decide (id = Event.RepoID event)
              then add64 (repoWatchEvents repos id) 1
              else repoWatchEvents repos id)
           ∧ repoCommits repos' id = repoCommits repos id)
  ∧ (Event.Type_ event ≠ eventTypePush →
     Event.Type_ event ≠ eventTypePullRequest →
     Event.Type_ event ≠ eventTypeWatch →
     processEvent a event users repos = Ok (users, repos)).
Proof.
  unfold processEvent. split_and!.
  - intros Hty recs Hfile Hrows Hmax.
    rewrite decide_True by done.
    pose proof (countCommitsByEvent_count a (Event.ID event) recs
                  Hfile Hrows Hmax) as Hcount.
    pose proof (countCommitsByEvent_in_int64 _ _ _ Hcount) as Hc.
    rewrite Hcount. simpl. eexists _, _. split; [done |].
    intros id. split_and!.
    + by apply userCommits_addUserCommits.
    + apply userPREvents_addUserCommits.
    + by apply repoCommits_addRepoCommits.
    + apply repoWatchEvents_addRepoCommits.
  - intros Hty. rewrite Hty.
    rewrite decide_False by done. rewrite decide_True by done.
    eexists. split; [done |]. intros id. split.
    + apply userPREvents_addUserPREvent.
    + apply userCommits_addUserPREvent.
  - intros Hty. rewrite Hty.
    rewrite decide_False by done. rewrite decide_False by done.
    rewrite decide_True by done.
    eexists. split; [done |]. intros id. split.
    + apply repoWatchEvents_addRepoWatchEvent.
    + apply repoCommits_addRepoWatchEvent.
  - intros H1 H2 H3. by rewrite !decide_False by done.
Qed.

(** ** The single pass over the events *)

Lemma processEvent_Ok (a : App) (event : Event.t)
    (users users' : UserStats) (repos repos' : RepoStats) :
  processEvent a event users repos = Ok (users', repos') →
  (Event.Type_ event = eventTypePush
   ∧ ∃ c, countCommitsByEvent a (Event.ID event) = Ok c ∧ in_int64 c
          ∧ users' = addUserCommits users (Event.ActorID event) c
          ∧ repos' = addRepoCommits repos (Event.RepoID event) c)
  ∨ (Event.Type_ event = eventTypePullRequest
     ∧ users' = addUserPREvent users (Event.ActorID event)
     ∧ repos' = repos)
  ∨ (Event.Type_ event = eventTypeWatch
     ∧ users' = users
     ∧ repos' = addRepoWatchEvent repos (Event.RepoID event))
  ∨ (¬ countsForUser event ∧ ¬ countsForRepo event
     ∧ users' = users ∧ repos' = repos).
Proof.
  unfold processEvent, countsForUser, countsForRepo.
  case_decide as Hpush; [| case_decide as Hpr; [| case_decide as Hwatch]].
  - destruct (countCommitsByEvent a (Event.ID event)) as [c | |] eqn:Hc;
      simpl; [| discriminate..].
    intros [= <- <-]. left. split; [done |]. exists c.
    split_and!; try done. by eapply countCommitsByEvent_in_int64.
  - intros [= <- <-]. right. left. done.
  - intros [= <- <-]. right. right. left. done.
  - intros [= <- <-]. right. right. right. split_and!; try done; tauto.
Qed.

Ltac entry_lookup :=
  unfold addUserCommits, addUserPREvent, addRepoCommits, addRepoWatchEvent;
  intros;
  repeat match goal with
  | |- context [match ?m !! ?k with _ => _ end] =>
      let E := fresh "E" in destruct (m !! k) eqn:E
  end;
  rewrite lookup_insert; case_decide; subst;
  split; intros; try (by eauto); try tauto;
  repeat match goal with
  | H : _ ∨ _ |- _ => destruct H
  | H : is_Some None |- _ => by destruct H
  end; subst; by eauto.

Lemma addUserCommits_is_Some (users : UserStats) (actor id : string) (c : Z) :
  is_Some (addUserCommits users actor c !! id)
  ↔ is_Some (users !! id) ∨ actor = id.
Proof. entry_lookup. Qed.

Lemma addUserPREvent_is_Some (users : UserStats) (actor id : string) :
  is_Some (addUserPREvent users actor !! id)
  ↔ is_Some (users !! id) ∨ actor = id.
Proof. entry_lookup. Qed.

Lemma addRepoCommits_is_Some (repos : RepoStats) (repo id : string) (c : Z) :
  is_Some (addRepoCommits repos repo c !! id)
  ↔ is_Some (repos !! id) ∨ repo = id.
Proof. entry_lookup. Qed.

Lemma addRepoWatchEvent_is_Some (repos : RepoStats) (repo id : string) :
  is_Some (addRepoWatchEvent repos repo !! id)
  ↔ is_Some (repos !! id) ∨ repo = id.
Proof. entry_lookup. Qed.

Lemma eventTypes_distinct :
  eventTypePush ≠ eventTypePullRequest
  ∧ eventTypePush ≠ eventTypeWatch
  ∧ eventTypePullRequest ≠ eventTypeWatch.
Proof. by split_and!. Qed.

(** One event gives an entry to its actor when it counts for a user, to
    its repository when it counts for a repository, and to no other id. *)
Lemma processEvent_is_Some (a : App) (event : Event.t)
    (users users' : UserStats) (repos repos' : RepoStats) (id : string) :
  processEvent a event users repos = Ok (users', repos') →
  (is_Some (users' !! id)
   ↔ is_Some (users !! id) ∨ countsForUser event ∧ Event.ActorID event = id)
  ∧ (is_Some (repos' !! id)
     ↔ is_Some (repos !! id)
       ∨ countsForRepo event ∧ Event.RepoID event = id).
Proof.
  destruct eventTypes_distinct as (Hd1 & Hd2 & Hd3).
  intros Hok. apply processEvent_Ok in Hok
    as [(Hty & c & _ & _ & -> & ->)
       | [(Hty & -> & ->) | [(Hty & -> & ->) | (Hu & Hr & -> & ->)]]].
  - rewrite addUserCommits_is_Some, addRepoCommits_is_Some.
    unfold countsForUser, countsForRepo. tauto.
  - rewrite addUserPREvent_is_Some.
    unfold countsForUser, countsForRepo. rewrite Hty. split; [tauto |].
    split; [tauto |]. intros [? | [[? | ?] _]]; [done | congruence..].
  - rewrite addRepoWatchEvent_is_Some.
    unfold countsForUser, countsForRepo. rewrite Hty. split; [| tauto].
    split; [tauto |]. intros [? | [[? | ?] _]]; [done | congruence..].
  - tauto.
Qed.

Lemma eventsIn_cons_record (record : list string) (event : Event.t)
    (reads : csvFile) :
  NewEventFromCSV record = Ok event →
  eventsIn (inr record :: reads) = event :: eventsIn reads.
Proof. intros Hev. unfold eventsIn. simpl. by rewrite Hev. Qed.

Lemma processEventsLoop_is_Some (a : App) (reads : csvFile)
    (users0 users : UserStats) (repos0 repos : RepoStats) (id : string) :
  processEventsLoop a reads true users0 repos0 = Ok (users, repos) →
  (is_Some (users !! id)
   ↔ is_Some (users0 !! id)
     ∨ ∃ event, event ∈ eventsIn reads
                ∧ countsForUser event ∧ Event.ActorID event = id)
  ∧ (is_Some (repos !! id)
     ↔ is_Some (repos0 !! id)
       ∨ ∃ event, event ∈ eventsIn reads
                  ∧ countsForRepo event ∧ Event.RepoID event = id).
Proof.
  revert users0 repos0.
  induction reads as [|[err | record] reads IH]; intros users0 repos0; simpl.
  - intros [= <- <-]. unfold eventsIn. simpl.
    split; (split; [tauto |]); intros [? | (? & Hin & _)]; try done;
      by apply elem_of_nil in Hin.
  - discriminate.
  - destruct (NewEventFromCSV record) as [event | |] eqn:Hev;
      [| discriminate..].
    destruct (processEvent a event users0 repos0) as [[users1 repos1] | |]
      eqn:Hstep; simpl; [| discriminate..].
    intros Hloop. apply IH in Hloop as [IHu IHr].
    apply (processEvent_is_Some _ _ _ _ _ _ id) in Hstep as [Hu Hr].
    rewrite (eventsIn_cons_record _ _ _ Hev).
    rewrite IHu, IHr, Hu, Hr. clear.
    split; split.
    + intros [[? | ?] | (e & ? & ?)]; [tauto | |].
      * right. exists event. split; [left | done].
      * right. exists e. split; [by right | done].
    + intros [? | (e & Hin & ?)]; [tauto |].
      apply elem_of_cons in Hin as [-> | Hin]; [tauto |].
      right. by exists e.
    + intros [[? | ?] | (e & ? & ?)]; [tauto | |].
      * right. exists event. split; [left | done].
      * right. exists e. split; [by right | done].
    + intros [? | (e & Hin & ?)]; [tauto |].
      apply elem_of_cons in Hin as [-> | Hin]; [tauto |].
      right. by exists e.
Qed.

Lemma processEvents_is_Some (a : App)
    (users : UserStats) (repos : RepoStats) (id : string) :
  processEvents a = Ok (users, repos) →
  (is_Some (users !! id)
   ↔ ∃ event, event ∈ eventsOf a
              ∧ countsForUser event ∧ Event.ActorID event = id)
  ∧ (is_Some (repos !! id)
     ↔ ∃ event, event ∈ eventsOf a
                ∧ countsForRepo event ∧ Event.RepoID event = id).
Proof.
  unfold processEvents, eventsOf.
  destruct (eventsCsv a) as [err | [|[err | header] reads]]; simpl;
    try discriminate.
  - intros [= <- <-].
    split; (split; [by intros [? ?] | intros (? & Hin & _)]);
      by apply elem_of_nil in Hin.
  - intros Hloop.
    apply (processEventsLoop_is_Some _ _ _ _ _ _ id) in Hloop as [Hu Hr].
    rewrite Hu, Hr. split; (split; [intros [[? ?] | ?]; done | by right]).
Qed.

(** C8, amended.  When the single pass over the events is through, the
    users map has an entry for an id exactly when some event of the table
    that counts for a user (a Push or a PullRequest) has the id as its
    actor, and the repos map has an entry for an id exactly when some
    event that counts for a repository (a Push or a Watch) has the id as
    its repository. *)
Theorem processEvents_entries (a : App)
    (users : UserStats) (repos : RepoStats) (id : string) :
  processEvents a = Ok (users, repos) →
  (is_Some (users !! id)
   ↔ ∃ event, event ∈ eventsOf a
              ∧ countsForUser event ∧ Event.ActorID event = id)
  ∧ (is_Some (repos !! id)
     ↔ ∃ event, event ∈ eventsOf a
                ∧ countsForRepo event ∧ Event.RepoID event = id).
Proof. apply processEvents_is_Some. Qed.

(** ** The two strategies count alike *)

Lemma processEventsLoop_countUserLoop (a : App) (reads : csvFile)
    (users0 users : UserStats) (repos0 repos : RepoStats) (id : string) :
  processEventsLoop a reads true users0 repos0 = Ok (users, repos) →
  countUserLoop a id reads true
    (userCommits users0 id) (userPREvents users0 id) =
  Ok (userCommits users id, userPREvents users id).
Proof.
  destruct eventTypes_distinct as (Hd1 & Hd2 & Hd3).
  revert users0 repos0.
  induction reads as [|[err | record] reads IH]; intros users0 repos0; simpl.
  - by intros [= <- <-].
  - discriminate.
  - destruct (NewEventFromCSV record) as [event | |] eqn:Hev;
      [| discriminate..].
    destruct (processEvent a event users0 repos0) as [[users1 repos1] | |]
      eqn:Hstep; simpl; [| discriminate..].
    intros Hloop. apply IH in Hloop. clear IH.
    apply processEvent_Ok in Hstep
      as [(Hty & c & Hc & Hrange & -> & ->)
         | [(Hty & -> & ->) | [(Hty & -> & ->) | (Hu & Hr & -> & ->)]]].
    + rewrite userCommits_addUserCommits, userPREvents_addUserCommits
        in Hloop by done.
      destruct (decide (Event.ActorID event = id)) as [Hid | Hid].
      * rewrite decide_True in Hloop by done.
        rewrite decide_False by tauto. rewrite decide_True by done.
        rewrite Hc. simpl. done.
      * rewrite decide_False in Hloop by congruence.
        by rewrite decide_True by done.
    + rewrite userCommits_addUserPREvent, userPREvents_addUserPREvent
        in Hloop.
      destruct (decide (Event.ActorID event = id)) as [Hid | Hid].
      * rewrite decide_True in Hloop by done.
        rewrite decide_False by tauto. rewrite decide_False by congruence.
        by rewrite decide_True by done.
      * rewrite decide_False in Hloop by congruence.
        by rewrite decide_True by done.
    + destruct (decide (Event.ActorID event ≠ id)); [done |].
      rewrite decide_False by congruence.
      by rewrite decide_False by congruence.
    + unfold countsForUser in Hu.
      destruct (decide (Event.ActorID event ≠ id)); [done |].
      rewrite decide_False by tauto. by rewrite decide_False by tauto.
Qed.

Lemma processEventsLoop_countRepoLoop (a : App) (reads : csvFile)
    (users0 users : UserStats) (repos0 repos : RepoStats) (id : string) :
  processEventsLoop a reads true users0 repos0 = Ok (users, repos) →
  countRepoLoop a id reads true
    (repoCommits repos0 id) (repoWatchEvents repos0 id) =
  Ok (repoCommits repos id, repoWatchEvents repos id).
Proof.
  destruct eventTypes_distinct as (Hd1 & Hd2 & Hd3).
  revert users0 repos0.
  induction reads as [|[err | record] reads IH]; intros users0 repos0; simpl.
  - by intros [= <- <-].
  - discriminate.
  - destruct (NewEventFromCSV record) as [event | |] eqn:Hev;
      [| discriminate..].
    destruct (processEvent a event users0 repos0) as [[users1 repos1] | |]
      eqn:Hstep; simpl; [| discriminate..].
    intros Hloop. apply IH in Hloop. clear IH.
    apply processEvent_Ok in Hstep
      as [(Hty & c & Hc & Hrange & -> & ->)
         | [(Hty & -> & ->) | [(Hty & -> & ->) | (Hu & Hr & -> & ->)]]].
    + rewrite repoCommits_addRepoCommits, repoWatchEvents_addRepoCommits
        in Hloop by done.
      destruct (decide (Event.RepoID event = id)) as [Hid | Hid].
      * rewrite decide_True in Hloop by done.
        rewrite decide_False by tauto. rewrite decide_True by done.
        rewrite Hc. simpl. done.
      * rewrite decide_False in Hloop by congruence.
        by rewrite decide_True by done.
    + destruct (decide (Event.RepoID event ≠ id)); [done |].
      rewrite decide_False by congruence.
      by rewrite decide_False by congruence.
    + rewrite repoCommits_addRepoWatchEvent,
        repoWatchEvents_addRepoWatchEvent in Hloop.
      destruct (decide (Event.RepoID event = id)) as [Hid | Hid].
      * rewrite decide_True in Hloop by done.
        rewrite decide_False by tauto. rewrite decide_False by congruence.
        by rewrite decide_True by done.
      * rewrite decide_False in Hloop by congruence.
        by rewrite decide_True by done.
    + unfold countsForRepo in Hr.
      destruct (decide (Event.RepoID event ≠ id)); [done |].
      rewrite decide_False by tauto. by rewrite decide_False by tauto.
Qed.

(** Whenever the single pass is through, the rescans of strategy A
    return, for every id, the counters the pass holds for it. *)
Lemma processEvents_counts (a : App)
    (users : UserStats) (repos : RepoStats) (id : string) :
  processEvents a = Ok (users, repos) →
  countUserRating a id = Ok (userCommits users id, userPREvents users id)
  ∧ countRepoRating a id =
    Ok (repoCommits repos id, repoWatchEvents repos id).
Proof.
  unfold processEvents, countUserRating, countRepoRating.
  destruct (eventsCsv a) as [err | [|[err | header] reads]]; simpl;
    try discriminate.
  - by intros [= <- <-].
  - intros Hloop. split.
    + by apply (processEventsLoop_countUserLoop _ _ _ _ _ _ id) in Hloop.
    + by apply (processEventsLoop_countRepoLoop _ _ _ _ _ _ id) in Hloop.
Qed.

(** What one event changes in a rescan of strategy A for the user [id]:
    a Push of that actor adds its commit count to the commits, a
    PullRequest of that actor adds 1 to the pull-request events, any
    other event changes nothing. *)
Lemma countUserLoop_event (a : App) (id : string) (record : list string)
    (event : Event.t) (reads : csvFile) (totalCommits totalPREvents : Z) :
  NewEventFromCSV record = Ok event →
  countUserLoop a id (inr record :: reads) true totalCommits totalPREvents =
  if decide (Event.ActorID event = id ∧ Event.Type_ event = eventTypePush)
  then commitCount <- countCommitsByEvent a (Event.ID event) ;;
       countUserLoop a id reads true
         (add64 totalCommits commitCount) totalPREvents
  else if decide (Event.ActorID event = id
                  ∧ Event.Type_ event = eventTypePullRequest)
  then countUserLoop a id reads true totalCommits (add64 totalPREvents 1)
  else countUserLoop a id reads true totalCommits totalPREvents.
Proof.
  destruct eventTypes_distinct as (Hd1 & Hd2 & Hd3).
  intros Hev. simpl. rewrite Hev. simpl.
  destruct (decide (Event.ActorID event ≠ id)) as [Hne | Heq].
  { rewrite !decide_False by tauto. done. }
  apply dec_stable in Heq.
  destruct (decide (Event.Type_ event = eventTypePush)) as [Hpush | Hpush].
  { by rewrite decide_True by done. }
  rewrite (decide_False (P := _ ∧ _ = eventTypePush)) by tauto.
  destruct (decide (Event.Type_ event = eventTypePullRequest)).
  - by rewrite decide_True by done.
  - by rewrite decide_False by tauto.
Qed.

(** The same for the repository [id]: a Push on that repository adds its
    commit count to the commits, a Watch on it adds 1 to the watch
    events. *)
Lemma countRepoLoop_event (a : App) (id : string) (record : list string)
    (event : Event.t) (reads : csvFile) (commitsPushed watchEvents : Z) :
  NewEventFromCSV record = Ok event →
  countRepoLoop a id (inr record :: reads) true commitsPushed watchEvents =
  if decide (Event.RepoID event = id ∧ Event.Type_ event = eventTypePush)
  then commitsByEvent <- countCommitsByEvent a (Event.ID event) ;;
       countRepoLoop a id reads true
         (add64 commitsPushed commitsByEvent) watchEvents
  else if decide (Event.RepoID event = id
                  ∧ Event.Type_ event = eventTypeWatch)
  then countRepoLoop a id reads true commitsPushed (add64 watchEvents 1)
  else countRepoLoop a id reads true commitsPushed watchEvents.
Proof.
  destruct eventTypes_distinct as (Hd1 & Hd2 & Hd3).
  intros Hev. simpl. rewrite Hev. simpl.
  destruct (decide (Event.RepoID event ≠ id)) as [Hne | Heq].
  { rewrite !decide_False by tauto. done. }
  apply dec_stable in Heq.
  destruct (decide (Event.Type_ event = eventTypePush)) as [Hpush | Hpush].
  { by rewrite decide_True by done. }
  rewrite (decide_False (P := _ ∧ _ = eventTypePush)) by tauto.
  destruct (decide (Event.Type_ event = eventTypeWatch)).
  - by rewrite decide_True by done.
  - by rewrite decide_False by tauto.
Qed.

(** ** The name passes *)

Lemma fillRepoNamesLoop_lookup (reads : csvFile)
    (repos repos' : RepoStats) (id : string) :
  fillRepoNamesLoop reads true repos = Ok repos' →
  repos' !! id =
  (λ repo, withName
             (lastName (records reads) id (RepoWithCommitsAndWatches.Name repo))
             repo) <$> repos !! id.
Proof.
  revert repos.
  induction reads as [|[err | record] reads IH]; intros repos; simpl.
  - intros [= <-]. destruct (repos !! id) as [[]|]; done.
  - discriminate.
  - unfold NewRepoFromCSV. case_decide as Hlen; [discriminate |]. simpl.
    destruct (repos !! field record 0) as [rRepo|] eqn:Hentry.
    + intros Hloop. apply IH in Hloop. rewrite Hloop.
      rewrite lookup_insert. case_decide as Hid.
      * subst id. by rewrite Hentry.
      * by destruct (repos !! id).
    + intros Hloop. apply IH in Hloop. rewrite Hloop.
      destruct (repos !! id) eqn:Hid; [| done]. simpl.
      rewrite decide_False; [done |]. intros Heq. congruence.
Qed.

(** [fillRepoNames] gives every repos entry the name field of the last
    row of the repository table carrying its id, keeps the name of an
    entry without such a row, and changes nothing else. *)
Lemma fillRepoNames_lookup (a : App) (header : list string)
    (reads : csvFile) (repos repos' : RepoStats) (id : string) :
  reposCsv a = inr (inr header :: reads) →
  fillRepoNames a repos = Ok repos' →
  repos' !! id =
  (λ repo, withName
             (lastName (records reads) id (RepoWithCommitsAndWatches.Name repo))
             repo) <$> repos !! id.
Proof.
  intros Hfile. unfold fillRepoNames. rewrite Hfile. simpl.
  apply fillRepoNamesLoop_lookup.
Qed.

Lemma fillUsernamesLoop_lookup (reads : csvFile)
    (users users' : UserStats) (id : string) :
  fillUsernamesLoop reads true users = Ok users' →
  users' !! id =
  (λ user, withUsername
             (if decide (id ∈ rowIDs (records reads)) then id
              else RatableUser.Username user) user) <$> users !! id.
Proof.
  revert users.
  induction reads as [|[err | record] reads IH]; intros users; simpl.
  - intros [= <-]. unfold rowIDs. simpl.
    by destruct (users !! id) as [[]|].
  - discriminate.
  - unfold NewUserFromCSV.
    destruct (decide (length record ≠ 2%nat)) as [Hlen | Hlen];
      [discriminate |]. simpl.
    unfold rowIDs in *. simpl.
    set (ids := (λ row, field row 0) <$> records reads) in *.
    assert (Hdec : ∀ x y : string,
               field record 0 ≠ id →
               (if decide (id ∈ field record 0 :: ids) then x else y) =
               (if decide (id ∈ ids) then x else y)).
    { intros x y Hne. apply decide_ext. rewrite elem_of_cons.
      split; [intros [Heq | ?]; [congruence | done] | by right]. }
    destruct (users !! field record 0) as [rUser|] eqn:Hentry;
      intros Hloop; apply IH in Hloop; rewrite Hloop; clear Hloop.
    + destruct (decide (field record 0 = id)) as [Heq | Hne].
      * subst id. rewrite lookup_insert_eq, Hentry. simpl.
        unfold withUsername; simpl.
        rewrite (decide_True (P := _ ∈ _ :: _)) by left.
        by destruct (decide (field record 0 ∈ ids)).
      * rewrite lookup_insert_ne by done.
        destruct (users !! id); [| done]. simpl. by rewrite Hdec.
    + destruct (users !! id) eqn:Hid; [| done]. simpl.
      rewrite Hdec; [done |]. congruence.
Qed.

(** [fillUsernames] gives every users entry whose id is the id of a row
    of the user table that id as its username, whatever the username
    field of the row, and changes nothing else. *)
Lemma fillUsernames_lookup (a : App) (header : list string)
    (reads : csvFile) (users users' : UserStats) (id : string) :
  actorsCsv a = inr (inr header :: reads) →
  fillUsernames a users = Ok users' →
  users' !! id =
  (λ user, withUsername
             (if decide (id ∈ rowIDs (records reads)) then id
              else RatableUser.Username user) user) <$> users !! id.
Proof.
  intros Hfile. unfold fillUsernames. rewrite Hfile. simpl.
  apply fillUsernamesLoop_lookup.
Qed.

(** The name passes keep the entries and their counters. *)
Lemma fillUsernames_counters (a : App) (users users' : UserStats)
    (id : string) :
  fillUsernames a users = Ok users' →
  userCommits users' id = userCommits users id
  ∧ userPREvents users' id = userPREvents users id
  ∧ (is_Some (users' !! id) ↔ is_Some (users !! id)).
Proof.
  unfold fillUsernames, userCommits, userPREvents.
  destruct (actorsCsv a) as [err | [|[err | header] reads]]; simpl;
    try discriminate.
  - by intros [= <-].
  - intros Hloop. apply (fillUsernamesLoop_lookup _ _ _ id) in Hloop.
    rewrite Hloop, fmap_is_Some. by destruct (users !! id).
Qed.

Lemma fillRepoNames_counters (a : App) (repos repos' : RepoStats)
    (id : string) :
  fillRepoNames a repos = Ok repos' →
  repoCommits repos' id = repoCommits repos id
  ∧ repoWatchEvents repos' id = repoWatchEvents repos id
  ∧ (is_Some (repos' !! id) ↔ is_Some (repos !! id)).
Proof.
  unfold fillRepoNames, repoCommits, repoWatchEvents.
  destruct (reposCsv a) as [err | [|[err | header] reads]]; simpl;
    try discriminate.
  - by intros [= <-].
  - intros Hloop. apply (fillRepoNamesLoop_lookup _ _ _ id) in Hloop.
    rewrite Hloop, fmap_is_Some. by destruct (repos !! id).
Qed.

Lemma PerformanceOptimizedStats_Ok (a : App)
    (users : UserStats) (repos : RepoStats) :
  PerformanceOptimizedStats a = Ok (users, repos) →
  ∃ users0 repos0,
    processEvents a = Ok (users0, repos0)
    ∧ fillUsernames a users0 = Ok users
    ∧ fillRepoNames a repos0 = Ok repos.
Proof.
  unfold PerformanceOptimizedStats.
  destruct (processEvents a) as [[users0 repos0] | |]; simpl;
    [| discriminate..].
  destruct (fillUsernames a users0) as [users1 | |] eqn:Hu; simpl;
    [| discriminate..].
  destruct (fillRepoNames a repos0) as [repos1 | |] eqn:Hr; simpl;
    [| discriminate..].
  intros [= <- <-]. by exists users0, repos0.
Qed.

(** C2, amended.  Whenever strategy B completes its passes, the counts
    strategy A computes for an id by rescanning the events are the
    counters of B's entry for that id, and zero where B has no entry:
    commits and pull-request events for a user id, commits and watch
    events for a repository id. *)
Theorem strategies_agree_on_counts (a : App)
    (users : UserStats) (repos : RepoStats) (id : string) :
  PerformanceOptimizedStats a = Ok (users, repos) →
  countUserRating a id = Ok (userCommits users id, userPREvents users id)
  ∧ countRepoRating a id =
    Ok (repoCommits repos id, repoWatchEvents repos id).
Proof.
  intros Hstats.
  apply PerformanceOptimizedStats_Ok in Hstats
    as (users0 & repos0 & Hpass & Hu & Hr).
  apply (fillUsernames_counters _ _ _ id) in Hu as (-> & -> & _).
  apply (fillRepoNames_counters _ _ _ id) in Hr as (-> & -> & _).
  by apply processEvents_counts.
Qed.

(** The entries of the maps that are ranged over are those of the
    pass over the events. *)
Lemma PerformanceOptimizedStats_entries (a : App)
    (users : UserStats) (repos : RepoStats) (id : string) :
  PerformanceOptimizedStats a = Ok (users, repos) →
  (is_Some (users !! id)
   ↔ ∃ event, event ∈ eventsOf a
              ∧ countsForUser event ∧ Event.ActorID event = id)
  ∧ (is_Some (repos !! id)
     ↔ ∃ event, event ∈ eventsOf a
                ∧ countsForRepo event ∧ Event.RepoID event = id).
Proof.
  intros Hstats.
  apply PerformanceOptimizedStats_Ok in Hstats
    as (users0 & repos0 & Hpass & Hu & Hr).
  apply (fillUsernames_counters _ _ _ id) in Hu as (_ & _ & ->).
  apply (fillRepoNames_counters _ _ _ id) in Hr as (_ & _ & ->).
  by apply processEvents_is_Some.
Qed.

(** ** The code on sample inputs *)

Lemma TryPush_false_unchanged_witness :
  fst (TryPush ratingOfOne (candidate "b" 3)) = false
  ∧ snd (TryPush ratingOfOne (candidate "b" 3)) = ratingOfOne.
Proof.
  split; [reflexivity |].
  apply (TryPush_false_unchanged ratingOfOne (candidate "b" 3)).
  reflexivity.
Defined.

(** C1.  A rating of capacity 3 that holds one candidate of score 5
    refuses a candidate of score 3: no held score is smaller, and the
    offer is refused although two places are free. *)
Theorem TryPush_refuses_below_capacity :
  TryPush ratingOfOne (candidate "b" 3) = (false, ratingOfOne)
  ∧ (length (slice ratingOfOne) < size ratingOfOne)%nat.
Proof. split; [reflexivity | simpl; lia]. Qed.

(** C3.  The scenario of the specification: offers scoring 5, 3, 3, 8, 1
    into a rating of capacity 3.  The held sequence ends as 8, 5; the
    top 3 of the candidates is 8, 5 and the first 3. *)
Theorem TryPushAll_scenario :
  slice (TryPushAll (NewRating 3) scenarioOffers) =
    [candidate "d" 8; candidate "a" 5]
  ∧ spec_topK 3 scenarioOffers =
    [candidate "d" 8; candidate "a" 5; candidate "b" 3].
Proof. split; reflexivity. Qed.

(** C7.  A new rating of capacity 0 accepts whatever candidate is
    offered first, returns true and holds it. *)
Theorem TryPush_capacity_0 {A : Type} `{Ratable A} (item : A) :
  TryPush (NewRating 0) item = (true, {| slice := [item]; size := 0 |})
  ∧ (size (NewRating (A := A) 0)
     < length (slice (snd (TryPush (NewRating 0) item))))%nat.
Proof. split; [reflexivity | simpl; lia]. Qed.

(** With capacity 0 and one candidate held, a higher offer is accepted
    and empties the sequence, a lower or equal one is refused. *)
Lemma TryPush_capacity_0_next :
  TryPush {| slice := [candidate "a" 5]; size := 0 |} (candidate "d" 8) =
    (true, {| slice := []; size := 0 |})
  ∧ TryPush {| slice := [candidate "a" 5]; size := 0 |} (candidate "b" 3) =
    (false, {| slice := [candidate "a" 5]; size := 0 |}).
Proof. split; reflexivity. Qed.

(** C6.  With user u1 named alice in the user table, [fillUsernames]
    writes u1, the id, as the username of the entry of u1;
    [fillRepoNames] on the like input writes the name field. *)
Theorem fillUsernames_writes_id :
  fillUsernames namedTables usersOfU1 =
    Ok {[ "u1" := {| RatableUser.ID := "u1"; RatableUser.Username := "u1";
                     RatableUser.Commits := 0; RatableUser.PREvents := 1 |} ]}
  ∧ fillRepoNames namedTables reposOfR1 =
    Ok {[ "r1" := {| RepoWithCommitsAndWatches.ID := "r1";
                     RepoWithCommitsAndWatches.Name := "one";
                     RepoWithCommitsAndWatches.Commits := 0;
                     RepoWithCommitsAndWatches.WatchEvents := 1 |} ]}.
Proof. split; reflexivity. Qed.

(** A commit table that cannot be opened counts as no commit. *)
Lemma countCommitsByEvent_open_error (a : App) (err : error)
    (eventID : string) :
  commitsCsv a = inl err → countCommitsByEvent a eventID = Ok 0.
Proof. intros Hfile. unfold countCommitsByEvent. by rewrite Hfile. Qed.

(** A record of the event table that is not of four fields makes the
    single pass panic. *)
Lemma processEventsLoop_short_record (a : App) (record : list string)
    (reads : csvFile) (users : UserStats) (repos : RepoStats) :
  length record ≠ 4%nat →
  processEventsLoop a (inr record :: reads) true users repos = Panic.
Proof.
  intros Hlen. simpl. unfold NewEventFromCSV. by rewrite decide_True.
Qed.

(** A failed read of the event table ends both strategies' scans with
    that error. *)
Lemma event_read_error (a : App) (err : error) (reads : csvFile)
    (hdr : bool) (users : UserStats) (repos : RepoStats) (id : string)
    (x y : Z) :
  processEventsLoop a (inl err :: reads) hdr users repos = Err err
  ∧ countUserLoop a id (inl err :: reads) hdr x y = Err err
  ∧ countRepoLoop a id (inl err :: reads) hdr x y = Err err.
Proof. by split_and!. Qed.

(** C4.  Two failures that are not returned to the caller.  With a commit
    table that cannot be opened, [countCommitsByEvent] returns 0 and no
    error, and both strategies return ratings in which the Push event
    counts no commit.  With an event table of three columns, the single
    pass panics instead of returning the decode error, which strategy A
    returns. *)
Theorem failures_not_returned :
  countCommitsByEvent unreadableCommitsTables "e1" = Ok 0
  ∧ PerformanceOptimizedRatings keyOrder unreadableCommitsTables =
    Ok ({| slice := [{| RatableUser.ID := "u1";
                        RatableUser.Username := "u1";
                        RatableUser.Commits := 0;
                        RatableUser.PREvents := 0 |}];
           size := 10 |},
        {| slice := [{| CommitRatableRepo.ID := "r1";
                        CommitRatableRepo.Name := "one";
                        CommitRatableRepo.Commits := 0 |}];
           size := 10 |},
        {| slice := [{| WatchRatableRepo.ID := "r1";
                        WatchRatableRepo.Name := "one";
                        WatchRatableRepo.WatchEvents := 0 |}];
           size := 10 |})
  ∧ SpaceOptimizedRatings unreadableCommitsTables =
    Ok ({| slice := [{| RatableUser.ID := "u1";
                        RatableUser.Username := "alice";
                        RatableUser.Commits := 0;
                        RatableUser.PREvents := 0 |}];
           size := 10 |},
        {| slice := [{| CommitRatableRepo.ID := "r1";
                        CommitRatableRepo.Name := "one";
                        CommitRatableRepo.Commits := 0 |}];
           size := 10 |},
        {| slice := [{| WatchRatableRepo.ID := "r1";
                        WatchRatableRepo.Name := "one";
                        WatchRatableRepo.WatchEvents := 0 |}];
           size := 10 |})
  ∧ PerformanceOptimizedRatings keyOrder shortEventTables = Panic
  ∧ countUserRating shortEventTables "u1" = Err ErrInvalidEventCSV.
Proof. split_and!; reflexivity. Qed.

(** C2, counterexample.  The user table names a user that no event
    mentions: strategy A rates the user, with no commit and no
    pull-request event, strategy B rates nobody. *)
Lemma strategies_differ_on_idle_user :
  SpaceOptimizedRatings idleUserTables =
    Ok ({| slice := [{| RatableUser.ID := "u2";
                        RatableUser.Username := "bob";
                        RatableUser.Commits := 0;
                        RatableUser.PREvents := 0 |}];
           size := 10 |},
        NewRating 10, NewRating 10)
  ∧ PerformanceOptimizedRatings keyOrder idleUserTables =
    Ok (NewRating 10, NewRating 10, NewRating 10)
  ∧ SpaceOptimizedRatings idleUserTables
    ≠ PerformanceOptimizedRatings keyOrder idleUserTables.
Proof. split_and!; [reflexivity | reflexivity | discriminate]. Qed.

(** On these tables strategy B rates nobody in whatever order the maps
    are ranged over. *)
Lemma idle_user_any_order (rangeOrder : ∀ V : Type, gmap string V → list V) :
  (∀ V (m : gmap string V), rangeOrder V m ≡ₚ keyOrder V m) →
  PerformanceOptimizedRatings rangeOrder idleUserTables =
  Ok (NewRating 10, NewRating 10, NewRating 10).
Proof.
  intros Hperm. unfold PerformanceOptimizedRatings.
  change (PerformanceOptimizedStats idleUserTables) with
    (Ok (∅ : UserStats, ∅ : RepoStats)).
  simpl.
  pose proof (Hperm _ (∅ : UserStats)) as Hu.
  pose proof (Hperm _ (∅ : RepoStats)) as Hr.
  unfold keyOrder in Hu, Hr.
  rewrite map_to_list_empty in Hu. rewrite map_to_list_empty in Hr.
  apply Permutation_nil_r in Hu. apply Permutation_nil_r in Hr.
  by rewrite Hu, Hr.
Qed.

Lemma strategies_agree_on_counts_witness :
  PerformanceOptimizedStats scenarioTables =
    Ok (scenarioUsers, scenarioRepos)
  ∧ countUserRating scenarioTables "u1" =
    Ok (userCommits scenarioUsers "u1", userPREvents scenarioUsers "u1")
  ∧ countRepoRating scenarioTables "u1" =
    Ok (repoCommits scenarioRepos "u1", repoWatchEvents scenarioRepos "u1").
Proof.
  split; [reflexivity |].
  apply (strategies_agree_on_counts scenarioTables scenarioUsers
           scenarioRepos "u1").
  reflexivity.
Defined.

(** C8, counterexample.  One Watch event of user u1 on repository r1:
    the pass leaves the users map empty and gives the repos map the one
    entry of r1.  The id u1 is referred to by a Watch event, an event of
    one of the three consumed types, and has a record in neither map. *)
Lemma watch_actor_has_no_record :
  processEvents watchOnlyTables = Ok (∅, reposOfR1)
  ∧ (∃ event, event ∈ eventsOf watchOnlyTables
              ∧ relevantEvent event ∧ refersTo event "u1")
  ∧ (∅ : UserStats) !! "u1" = None
  ∧ reposOfR1 !! "u1" = None
  ∧ ¬ ((is_Some ((∅ : UserStats) !! "u1") ∨ is_Some (reposOfR1 !! "u1"))
       ↔ ∃ event, event ∈ eventsOf watchOnlyTables
                  ∧ relevantEvent event ∧ refersTo event "u1").
Proof.
  assert (Hev : ∃ event, event ∈ eventsOf watchOnlyTables
                         ∧ relevantEvent event ∧ refersTo event "u1").
  { exists {| Event.ID := "e2"; Event.Type_ := eventTypeWatch;
              Event.ActorID := "u1"; Event.RepoID := "r1" |}.
    split; [apply list_elem_of_here |].
    split; [right; right; reflexivity | left; reflexivity]. }
  split; [reflexivity |]. split; [exact Hev |].
  split; [reflexivity |]. split; [reflexivity |].
  intros [_ Hback]. destruct (Hback Hev) as [[x Hx] | [x Hx]];
    discriminate Hx.
Qed.

Lemma processEvents_entries_witness :
  processEvents scenarioTables =
    Ok (scenarioUsersCounted, scenarioReposCounted)
  ∧ (is_Some (scenarioUsersCounted !! "u1")
     ↔ ∃ event, event ∈ eventsOf scenarioTables
                ∧ countsForUser event ∧ Event.ActorID event = "u1")
  ∧ (is_Some (scenarioReposCounted !! "u1")
     ↔ ∃ event, event ∈ eventsOf scenarioTables
                ∧ countsForRepo event ∧ Event.RepoID event = "u1").
Proof.
  split; [reflexivity |].
  apply (processEvents_entries scenarioTables scenarioUsersCounted
           scenarioReposCounted "u1").
  reflexivity.
Defined.

Lemma processEvent_contribution_witness :
  ∃ users' repos',
    processEvent scenarioTables pushE1 ∅ ∅ = Ok (users', repos')
    ∧ ∀ id,
        userCommits users' id =
          (if decide (id = "u1")
           then add64 (userCommits ∅ id) (matchingCommits commitRowsE1 "e1")
           else userCommits ∅ id)
        ∧ userPREvents users' id = userPREvents ∅ id
        ∧ repoCommits repos' id =
            (if decide (id = "r1")
             then add64 (repoCommits ∅ id) (matchingCommits commitRowsE1 "e1")
             else repoCommits ∅ id)
        ∧ repoWatchEvents repos' id = repoWatchEvents ∅ id.
Proof.
  destruct (processEvent_contribution scenarioTables pushE1 ∅ ∅)
    as [Hpush _].
  apply (Hpush eq_refl (["sha"; "message"; "event_id"] :: commitRowsE1)).
  - reflexivity.
  - repeat constructor.
  - vm_compute. discriminate.
Defined.

(** * Further properties of the code *)

(** ** [insert] and [TryPush] *)

(** X1.  For an index up to the length, [insert] splices: the items
    before the index, the value, the items from the index on.  The result
    is one longer and holds the value at the index. *)
Theorem insert_splices {A : Type} (a : list A) (index : nat) (value : A) :
  (index ≤ length a)%nat →
  insert a index value = take index a ++ value :: drop index a
  ∧ length (insert a index value) = S (length a)
  ∧ insert a index value !! index = Some value.
Proof.
  intros Hle. rewrite insert_in_range by done. split_and!.
  - done.
  - rewrite length_app, length_take. simpl. rewrite length_drop. lia.
  - rewrite lookup_app_r by (rewrite length_take; lia).
    rewrite length_take, Nat.min_l, Nat.sub_diag by lia. done.
Qed.

Lemma insert_splices_witness :
  (1 ≤ length ["a"; "c"])%nat
  ∧ insert ["a"; "c"] 1 "b" = take 1 ["a"; "c"] ++ "b" :: drop 1 ["a"; "c"]
  ∧ length (insert ["a"; "c"] 1 "b") = S (length ["a"; "c"])
  ∧ insert ["a"; "c"] 1 "b" !! 1%nat = Some "b".
Proof.
  split; [simpl; lia |].
  apply (insert_splices ["a"; "c"] 1 "b"). simpl. lia.
Defined.

Section RatingMore.
Context {A : Type} `{Ratable A}.

Lemma TryPush_cases (r : Rating A) (item : A) :
  (slice r = []
   ∧ TryPush r item = (true, {| slice := [item]; size := size r |}))
  ∨ (∃ front value back,
       slice r = front ++ value :: back
       ∧ Forall (not_above item) front
       ∧ float64_gt (GetRating item) (GetRating value) = true
       ∧ TryPush r item =
         (true, {| slice := take (size r) (front ++ item :: value :: back);
                   size := size r |}))
  ∨ (slice r ≠ [] ∧ Forall (not_above item) (slice r)
     ∧ TryPush r item = (false, r)).
Proof.
  destruct (decide (slice r = [])) as [Hnil | Hne].
  { left. split; [done |]. by apply TryPush_empty. }
  right. destruct (scan item (slice r) 0) as [i|] eqn:Hscan.
  - left. apply scan_Some in Hscan
      as (front & value & back & Hs & _ & Hfront & Hv).
    exists front, value, back. split_and!; try done.
    by apply TryPush_accept.
  - right. apply scan_None in Hscan. split_and!; try done.
    by apply TryPush_reject.
Qed.

(** X3.  In a rating that is within its capacity, an offer that
    [TryPush] answers with true is held afterwards. *)
Theorem TryPush_true_holds_item (r : Rating A) (item : A) :
  (length (slice r) ≤ size r)%nat →
  fst (TryPush r item) = true →
  item ∈ slice (snd (TryPush r item)).
Proof.
  intros Hcap Htrue.
  destruct (TryPush_cases r item)
    as [[_ ->] | [(front & value & back & Hs & _ & _ & ->) | (_ & _ & Hrej)]].
  - simpl. apply list_elem_of_here.
  - simpl. apply list_elem_of_lookup. exists (length front).
    rewrite Hs, length_app in Hcap. simpl in Hcap.
    rewrite lookup_take_lt by lia.
    by rewrite list_lookup_middle.
  - rewrite Hrej in Htrue. discriminate.
Qed.

Lemma TryPushAll_subseteq (items : list A) (r : Rating A) :
  slice (TryPushAll r items) ⊆ slice r ++ items.
Proof.
  revert r. induction items as [|item items IH]; intros r.
  { simpl. by rewrite app_nil_r. }
  unfold TryPushAll in *. simpl. etrans; [apply IH |].
  destruct (TryPush_cases r item)
    as [[Hs ->] | [(front & value & back & Hs & _ & _ & ->) | (_ & _ & ->)]];
    simpl.
  - rewrite Hs. intros x. rewrite !elem_of_app, !elem_of_cons. tauto.
  - rewrite Hs. intros x. rewrite !elem_of_app, !elem_of_cons.
    intros [Hx | Hx]; [| tauto]. apply subseteq_take in Hx.
    rewrite elem_of_app, !elem_of_cons in Hx. tauto.
  - intros x. rewrite !elem_of_app, !elem_of_cons. tauto.
Qed.

(** X5.  A rating made with a capacity of 1 or more never holds more
    items than its capacity, whatever is offered. *)
Theorem NewRating_within_capacity (K : nat) (items : list A) :
  (1 ≤ K)%nat →
  (length (slice (TryPushAll (NewRating K) items)) ≤ K)%nat.
Proof.
  intros HK.
  apply (TryPushAll_length items (NewRating K)); simpl; lia.
Qed.

(** X6.  After any offers whose scores are numbers, the held sequence
    of a new rating is non-increasing by score. *)
Theorem NewRating_descending (K : nat) (items : list A) :
  Forall scored items →
  descending (slice (TryPushAll (NewRating K) items)).
Proof.
  intros Hitems. apply TryPushAll_descending; [done | constructor |].
  constructor.
Qed.

Lemma SFleb_refl (x : float64) : x ≠ S754_nan → SFleb x x = true.
Proof.
  unfold SFleb, SFcompare.
  destruct x as [[]|[]| |[] ? ?]; simpl; try done;
    intros _; rewrite Z.compare_refl;
    change (Pos.compare_cont Eq m m) with (Pos.compare m m);
    by rewrite Pos.compare_refl.
Qed.

Lemma TryPush_head_step (r : Rating A) (item : A) (seen : list A)
    (top : A) (rest : list A) :
  (1 ≤ size r)%nat → scored item → Forall scored seen →
  slice r = top :: rest → top ∈ seen → Forall (score_ge top) seen →
  ∃ top' rest',
    slice (snd (TryPush r item)) = top' :: rest'
    ∧ top' ∈ seen ++ [item]
    ∧ Forall (score_ge top') (seen ++ [item]).
Proof.
  intros Hsize Hitem Hseen Hs Htop Hbest.
  assert (Hstop : scored top).
  { rewrite Forall_forall in Hseen. by apply Hseen. }
  assert (Hsz : ∃ n, size r = S n) by (destruct (size r); [lia | eauto]).
  destruct Hsz as [n Hn].
  destruct (TryPush_cases r item)
    as [[Hnil _] | [(front & value & back & Hs' & Hfront & Hv & ->)
                   | (_ & Hall & ->)]]; simpl.
  - congruence.
  - rewrite Hn. destruct front as [|f front]; simpl in *.
    + exists item, (take n (value :: back)). split; [done |].
      rewrite Hs in Hs'. injection Hs' as <- <-.
      split; [apply elem_of_app; right; apply list_elem_of_here |].
      apply Forall_app. split.
      * eapply Forall_impl; [exact Hbest |]. intros x Hx. simpl in Hx.
        apply (score_ge_trans item top x); [| exact Hx].
        by apply above_score_ge.
      * constructor; [| constructor]. by apply SFleb_refl.
    + rewrite Hs in Hs'. injection Hs' as <- ->.
      exists top, (take n (front ++ item :: value :: back)).
      split; [done |]. split; [apply elem_of_app; by left |].
      apply Forall_app. split; [done |].
      constructor; [| constructor].
      apply Forall_cons in Hfront as [Hf _].
      by apply not_above_score_ge.
  - exists top, rest. split; [done |].
    split; [apply elem_of_app; by left |].
    apply Forall_app. split; [done |]. constructor; [| constructor].
    rewrite Hs in Hall. apply Forall_cons in Hall as [Hf _].
    by apply not_above_score_ge.
Qed.

Lemma TryPushAll_head (items : list A) (r : Rating A) (seen : list A)
    (top : A) (rest : list A) :
  (1 ≤ size r)%nat → Forall scored items → Forall scored seen →
  slice r = top :: rest → top ∈ seen → Forall (score_ge top) seen →
  ∃ top' rest',
    slice (TryPushAll r items) = top' :: rest'
    ∧ top' ∈ seen ++ items
    ∧ Forall (score_ge top') (seen ++ items).
Proof.
  revert r seen top rest.
  induction items as [|item items IH];
    intros r seen top rest Hsize Hitems Hseen Hs Htop Hbest.
  { exists top, rest. by rewrite app_nil_r. }
  apply Forall_cons in Hitems as [Hitem Hitems].
  destruct (TryPush_head_step r item seen top rest)
    as (top1 & rest1 & Hs1 & Htop1 & Hbest1); try done.
  unfold TryPushAll in *. simpl.
  destruct (IH (snd (TryPush r item)) (seen ++ [item]) top1 rest1)
    as (top' & rest' & Hs' & Htop' & Hbest'); try done.
  - by rewrite TryPush_size.
  - apply Forall_app. split; [done |]. by constructor.
  - exists top', rest'. by rewrite <- app_assoc in Htop', Hbest'.
Qed.

(** X7.  After one offer or more, all with numbers as scores, into a new
    rating of capacity 1 or more, the first held item is one of the
    offers and no offer has a higher score. *)
Theorem NewRating_head_is_best (K : nat) (items : list A) :
  (1 ≤ K)%nat → items ≠ [] → Forall scored items →
  ∃ top rest,
    slice (TryPushAll (NewRating K) items) = top :: rest
    ∧ top ∈ items
    ∧ Forall (score_ge top) items.
Proof.
  intros HK Hne Hitems. destruct items as [|first items]; [done |].
  apply Forall_cons in Hitems as [Hfirst Hitems].
  unfold TryPushAll. simpl.
  change (foldl (λ r item, snd (TryPush r item))
            {| slice := [first]; size := K |} items)
    with (TryPushAll {| slice := [first]; size := K |} items).
  destruct (TryPushAll_head items {| slice := [first]; size := K |}
              [first] first [])
    as (top & rest & Hs & Htop & Hbest); try done.
  - by constructor.
  - apply list_elem_of_here.
  - constructor; [| constructor]. by apply SFleb_refl.
  - by exists top, rest.
Qed.


(** X4.  Whatever is offered, every item a rating holds was held before
    or is one of the offers. *)
Theorem TryPushAll_holds_offers_only (items : list A) (r : Rating A) :
  slice (TryPushAll r items) ⊆ slice r ++ items.
Proof. apply TryPushAll_subseteq. Qed.
End RatingMore.

(** ** The scores of the candidates *)

Lemma shr_1_nonneg (mrs : shr_record) :
  (0 <= shr_m mrs)%Z → (0 <= shr_m (shr_1 mrs))%Z.
Proof.
  destruct mrs as [m r s]. simpl. destruct m as [|[p|p|]|p]; simpl; lia.
Qed.

Lemma iter_shr_1_nonneg (p : positive) (mrs : shr_record) :
  (0 <= shr_m mrs)%Z → (0 <= shr_m (SpecFloat.iter_pos shr_1 p mrs))%Z.
Proof.
  revert mrs. induction p as [p IH|p IH|]; intros mrs Hm; simpl.
  - apply IH, IH. by apply shr_1_nonneg.
  - by apply IH, IH.
  - by apply shr_1_nonneg.
Qed.

Lemma shr_fexp_nonneg (prec emax m e : Z) (l : location) :
  (0 <= m)%Z → (0 <= shr_m (fst (shr_fexp prec emax m e l)))%Z.
Proof.
  intros Hm. unfold shr_fexp, shr.
  assert (Hr : (0 <= shr_m (shr_record_of_loc m l))%Z).
  { destruct l as [|[]]; simpl; lia. }
  destruct (fexp prec emax (Zdigits2 m + e) - e)%Z; simpl; try done.
  by apply iter_shr_1_nonneg.
Qed.

Lemma round_nearest_even_nonneg (m : Z) (l : location) :
  (0 <= m)%Z → (0 <= round_nearest_even m l)%Z.
Proof.
  intros Hm. destruct l as [|[]]; simpl; try lia.
  destruct (Z.even m); lia.
Qed.

Lemma binary_round_aux_not_nan (prec emax : Z) (sx : bool) (mx ex : Z)
    (lx : location) :
  (0 <= mx)%Z → binary_round_aux prec emax sx mx ex lx ≠ S754_nan.
Proof.
  intros Hm. unfold binary_round_aux.
  pose proof (shr_fexp_nonneg prec emax mx ex lx Hm) as H1.
  destruct (shr_fexp prec emax mx ex lx) as [mrs' e']. simpl in H1.
  pose proof (shr_fexp_nonneg prec emax
                (round_nearest_even (shr_m mrs') (loc_of_shr_record mrs'))
                e' loc_Exact (round_nearest_even_nonneg _ _ H1)) as H2.
  destruct (shr_fexp prec emax _ e' loc_Exact) as [mrs'' e'']. simpl in H2.
  destruct (shr_m mrs'') as [|m|m]; try done; try lia.
  by destruct (e'' <=? emax - prec)%Z.
Qed.

Lemma float64_of_int64_not_nan (n : Z) : float64_of_int64 n ≠ S754_nan.
Proof.
  unfold float64_of_int64, binary_normalize, binary_round.
  destruct n as [|p|p]; [done | |];
    destruct (shl_align _ _ _) as [mz ez]; by apply binary_round_aux_not_nan.
Qed.

Lemma digits2_pos_bounds (p : positive) :
  (2 ^ (Zpos (digits2_pos p) - 1) <= Zpos p < 2 ^ Zpos (digits2_pos p))%Z.
Proof.
  induction p as [p IH|p IH|]; simpl digits2_pos.
  - rewrite Pos2Z.inj_succ.
    replace (Z.succ (Zpos (digits2_pos p)) - 1)%Z
      with (Z.succ (Zpos (digits2_pos p) - 1)) by lia.
    rewrite !Z.pow_succ_r by lia. lia.
  - rewrite Pos2Z.inj_succ.
    replace (Z.succ (Zpos (digits2_pos p)) - 1)%Z
      with (Z.succ (Zpos (digits2_pos p) - 1)) by lia.
    rewrite !Z.pow_succ_r by lia. lia.
  - simpl. lia.
Qed.

Lemma digits2_pos_iter_xO (p k : positive) :
  digits2_pos (Pos.iter xO p k) = (digits2_pos p + k)%positive.
Proof.
  induction k as [|k IH] using Pos.peano_ind.
  - simpl. lia.
  - rewrite Pos.iter_succ. simpl. rewrite IH. lia.
Qed.

Lemma Zpos_iter_xO (p k : positive) :
  Zpos (Pos.iter xO p k) = (Zpos p * 2 ^ Zpos k)%Z.
Proof.
  induction k as [|k IH] using Pos.peano_ind.
  - simpl. lia.
  - rewrite Pos.iter_succ, Pos2Z.inj_succ, Z.pow_succ_r by lia.
    rewrite Pos2Z.inj_xO, IH. lia.
Qed.

Lemma digits2_pos_le_53 (p : positive) :
  (Zpos p < 2 ^ 53)%Z → (Zpos (digits2_pos p) <= 53)%Z.
Proof.
  intros Hp. pose proof (digits2_pos_bounds p) as [Hlo _].
  destruct (Z_le_gt_dec (Zpos (digits2_pos p)) 53) as [|Hgt]; [done |].
  assert (2 ^ 53 <= 2 ^ (Zpos (digits2_pos p) - 1))%Z.
  { apply Z.pow_le_mono_r; lia. }
  lia.
Qed.

(** Below 2^53 the conversion rounds nothing away: the result is the
    number itself, its mantissa shifted to 53 bits. *)
Lemma float64_of_int64_pos (p : positive) :
  (Zpos p < 2 ^ 53)%Z →
  ∃ mz,
    float64_of_int64 (Zpos p) =
      S754_finite false mz (Zpos (digits2_pos p) - 53)
    ∧ Zpos mz = (Zpos p * 2 ^ (53 - Zpos (digits2_pos p)))%Z.
Proof.
  intros Hp. pose proof (digits2_pos_le_53 p Hp) as Hd.
  unfold float64_of_int64, binary_normalize, binary_round.
  assert (Hfexp : fexp 53 1024 (Zpos (digits2_pos p) + 0)
                  = (Zpos (digits2_pos p) - 53)%Z).
  { unfold fexp, emin. lia. }
  rewrite Hfexp.
  assert (Hal : ∃ mz,
             shl_align p 0 (Zpos (digits2_pos p) - 53)
             = (mz, (Zpos (digits2_pos p) - 53)%Z)
             ∧ Zpos mz = (Zpos p * 2 ^ (53 - Zpos (digits2_pos p)))%Z
             ∧ Zpos (digits2_pos mz) = 53%Z).
  { unfold shl_align.
    destruct (Zpos (digits2_pos p) - 53 - 0)%Z as [|k|k] eqn:Hk; try lia.
    - exists p. replace (Zpos (digits2_pos p) - 53)%Z with 0%Z by lia.
      split; [done |].
      replace (53 - Zpos (digits2_pos p))%Z with 0%Z by lia.
      rewrite Z.pow_0_r. split; lia.
    - exists (Pos.iter xO p k). split; [done |].
      rewrite Zpos_iter_xO, digits2_pos_iter_xO, Pos2Z.inj_add.
      pose proof (Pos2Z.opp_pos k).
      replace (53 - Zpos (digits2_pos p))%Z with (Zpos k) by lia.
      split; [done | lia]. }
  destruct Hal as (mz & -> & Hmz & Hdz). exists mz. split; [| done].
  unfold binary_round_aux, shr_fexp. simpl Zdigits2.
  simpl shr_record_of_loc.
  assert (Hsh : (fexp 53 1024
                   (Zpos (digits2_pos mz) + (Zpos (digits2_pos p) - 53))
                 - (Zpos (digits2_pos p) - 53))%Z = 0%Z).
  { unfold fexp, emin. lia. }
  rewrite Hsh.
  cbn [shr shr_m shr_r shr_s loc_of_shr_record round_nearest_even Zdigits2].
  rewrite Hsh. cbn [shr shr_m].
  destruct (Z.leb_spec (Zpos (digits2_pos p) - 53) (1024 - 53));
    [done | lia].
Qed.

(** Below 2^53 the scores compare as the counts do. *)
Lemma float64_compare_small (a b : Z) :
  (0 <= a < 2 ^ 53)%Z → (0 <= b < 2 ^ 53)%Z →
  SFcompare (float64_of_int64 a) (float64_of_int64 b) = Some (a ?= b)%Z.
Proof.
  intros Ha Hb.
  destruct a as [|p|p], b as [|q|q]; try lia.
  - done.
  - destruct (float64_of_int64_pos q) as (mq & -> & _); [lia |]. done.
  - destruct (float64_of_int64_pos p) as (mp & -> & _); [lia |]. done.
  - destruct (float64_of_int64_pos p) as (mp & -> & Hmp); [lia |].
    destruct (float64_of_int64_pos q) as (mq & -> & Hmq); [lia |].
    pose proof (digits2_pos_bounds p) as [Hplo Hphi].
    pose proof (digits2_pos_bounds q) as [Hqlo Hqhi].
    pose proof (digits2_pos_le_53 p ltac:(lia)) as Hdp.
    pose proof (digits2_pos_le_53 q ltac:(lia)) as Hdq.
    unfold SFcompare. f_equal.
    change (Pos.compare_cont Eq mp mq) with (Pos.compare mp mq).
    rewrite (Pos2Z.inj_compare mp mq), Hmp, Hmq.
    destruct (Z.compare_spec (Zpos (digits2_pos p) - 53)
                (Zpos (digits2_pos q) - 53)) as [He | Hl | Hg].
    + replace (Zpos (digits2_pos q)) with (Zpos (digits2_pos p)) by lia.
      assert (Hpow : (0 < 2 ^ (53 - Zpos (digits2_pos p)))%Z)
        by (apply Z.pow_pos_nonneg; lia).
      by rewrite <- (Zmult_compare_compat_r (Zpos p) (Zpos q)) by lia.
    + assert (2 ^ Zpos (digits2_pos p) <= 2 ^ (Zpos (digits2_pos q) - 1))%Z.
      { apply Z.pow_le_mono_r; lia. }
      symmetry. apply Z.compare_lt_iff. lia.
    + assert (2 ^ Zpos (digits2_pos q) <= 2 ^ (Zpos (digits2_pos p) - 1))%Z.
      { apply Z.pow_le_mono_r; lia. }
      symmetry. apply Z.compare_gt_iff. lia.
Qed.

Lemma float64_gt_small (a b : Z) :
  (0 <= a < 2 ^ 53)%Z → (0 <= b < 2 ^ 53)%Z →
  float64_gt (float64_of_int64 a) (float64_of_int64 b) = (b <? a)%Z.
Proof.
  intros Ha Hb. unfold float64_gt, SFltb.
  by rewrite float64_compare_small.
Qed.

Lemma float64_le_small (a b : Z) :
  (0 <= a < 2 ^ 53)%Z → (0 <= b < 2 ^ 53)%Z →
  SFleb (float64_of_int64 a) (float64_of_int64 b) = (a <=? b)%Z.
Proof.
  intros Ha Hb. unfold SFleb.
  by rewrite float64_compare_small.
Qed.

Lemma StronglySorted_change {A : Type} (R R' : A → A → Prop) (P : A → Prop)
    (l : list A) :
  (∀ x y, P x → P y → R x y → R' x y) →
  Forall P l → StronglySorted R l → StronglySorted R' l.
Proof.
  intros Himp HP Hsorted. induction Hsorted as [|x l Hl IH Hx]; [constructor |].
  apply Forall_cons in HP as [Px Pl]. constructor; [by apply IH |].
  rewrite Forall_forall in Hx, Pl |- *. intros y Hy. apply Himp; auto.
Qed.

(** For a candidate type scored by an integer count, a new rating that
    is offered exact counts holds them in non-increasing order of the
    counts. *)
Lemma TryPushAll_sorted_by_count {A : Type} `{Ratable A} (count : A → Z)
    (K : nat) (items : list A) :
  (∀ x, GetRating x = float64_of_int64 (count x)) →
  Forall (λ x, exact_count (count x)) items →
  StronglySorted (λ x y, (count y <= count x)%Z)
    (slice (TryPushAll (NewRating K) items)).
Proof.
  intros Hscore Hitems.
  assert (Hheld : Forall (λ x, exact_count (count x))
                    (slice (TryPushAll (NewRating K) items))).
  { rewrite Forall_forall in Hitems |- *. intros x Hx. apply Hitems.
    by apply (TryPushAll_subseteq items (NewRating K)) in Hx. }
  eapply (StronglySorted_change score_ge); [| exact Hheld |].
  - intros x y Hx Hy. unfold score_ge. rewrite !Hscore.
    rewrite float64_le_small by done. apply Z.leb_le.
  - apply TryPushAll_descending; [| constructor | constructor].
    rewrite Forall_forall. intros x _. unfold scored.
    rewrite Hscore. apply float64_of_int64_not_nan.
Qed.

(** X8.  The score of a candidate of any of the three kinds is a number,
    never a NaN. *)
Theorem candidates_scored :
  (∀ r : CommitRatableRepo.t, scored r)
  ∧ (∀ r : WatchRatableRepo.t, scored r)
  ∧ (∀ u : RatableUser.t, scored u).
Proof. split_and!; intros x; apply float64_of_int64_not_nan. Qed.

(** X9.  On counts from 0 to below 2^53 the comparison [TryPush] makes,
    score above score, is the comparison of the counts: commits for a
    repository rated by commits, watch events for one rated by watches,
    pull-request events plus commits for a user. *)
Theorem candidate_scores_compare_as_counts :
  (∀ x y : CommitRatableRepo.t,
     exact_count (CommitRatableRepo.Commits x) →
     exact_count (CommitRatableRepo.Commits y) →
     float64_gt (GetRating x) (GetRating y)
     = (CommitRatableRepo.Commits y <? CommitRatableRepo.Commits x)%Z)
  ∧ (∀ x y : WatchRatableRepo.t,
       exact_count (WatchRatableRepo.WatchEvents x) →
       exact_count (WatchRatableRepo.WatchEvents y) →
       float64_gt (GetRating x) (GetRating y)
       = (WatchRatableRepo.WatchEvents y
          <? WatchRatableRepo.WatchEvents x)%Z)
  ∧ (∀ x y : RatableUser.t,
       exact_count (userScore x) → exact_count (userScore y) →
       float64_gt (GetRating x) (GetRating y)
       = (userScore y <? userScore x)%Z).
Proof. split_and!; intros x y Hx Hy; by apply float64_gt_small. Qed.

(** X10.  A new rating of whatever capacity that is offered candidates
    with counts from 0 to below 2^53 holds them in non-increasing order
    of the count: of the commits, of the watch events, of the
    pull-request events plus commits. *)
Theorem ratings_sorted_by_count (K : nat) :
  (∀ items : list CommitRatableRepo.t,
     Forall (λ r, exact_count (CommitRatableRepo.Commits r)) items →
     StronglySorted
       (λ x y, (CommitRatableRepo.Commits y <= CommitRatableRepo.Commits x)%Z)
       (slice (TryPushAll (NewRating K) items)))
  ∧ (∀ items : list WatchRatableRepo.t,
       Forall (λ r, exact_count (WatchRatableRepo.WatchEvents r)) items →
       StronglySorted
         (λ x y, (WatchRatableRepo.WatchEvents y
                  <= WatchRatableRepo.WatchEvents x)%Z)
         (slice (TryPushAll (NewRating K) items)))
  ∧ (∀ items : list RatableUser.t,
       Forall (λ u, exact_count (userScore u)) items →
       StronglySorted (λ x y, (userScore y <= userScore x)%Z)
         (slice (TryPushAll (NewRating K) items))).
Proof.
  split_and!; intros items Hitems;
    by apply (TryPushAll_sorted_by_count _ K items).
Qed.

(** ** Decoding loses nothing *)

(** X11.  An entity that a decoder returns was read from exactly its own
    fields in their order: the record is the list of the entity's
    fields. *)
Theorem decoders_keep_fields :
  (∀ csv e, NewEventFromCSV csv = Ok e → csv = eventFields e)
  ∧ (∀ csv u, NewUserFromCSV csv = Ok u → csv = userFields u)
  ∧ (∀ csv c, NewCommitFromCSV csv = Ok c → csv = commitFields c)
  ∧ (∀ csv r, NewRepoFromCSV csv = Ok r → csv = repoFields r).
Proof.
  split_and!; intros csv e;
    unfold NewEventFromCSV, NewUserFromCSV, NewCommitFromCSV, NewRepoFromCSV;
    case_decide as Hlen; try discriminate; intros [= <-];
    repeat (destruct csv as [|? csv]; try discriminate); reflexivity.
Qed.

(** ** Failures while counting commits *)

Lemma countCommitsLoop_rows_app (eventID : string)
    (rows : list (list string)) (rest : csvFile) (total : Z) :
  Forall (λ row, length row = 3%nat) rows →
  ∃ total',
    countCommitsLoop eventID ((inr <$> rows) ++ rest) true total =
    countCommitsLoop eventID rest true total'.
Proof.
  intros Hrows. revert total.
  induction Hrows as [|row rows Hrow _ IH]; intros total; simpl.
  - by exists total.
  - unfold NewCommitFromCSV. rewrite decide_False by (by intros ?). simpl.
    case_decide; apply IH.
Qed.

(** X12.  [countCommitsByEvent] stops at the first failure, whatever
    event is asked for and whatever follows.  After the header and any
    number of rows of three fields, a failed read - a row cut short comes
    as one - ends the count with the error of that read.  On a commit
    table that has not three columns, where the first row has the width
    of the header and that is not three, the count ends at that row with
    [ErrInvalidCommitCSV].  A failed first read ends it with its error.
    The header is skipped without being decoded. *)
Theorem countCommitsByEvent_first_failure (a : App) (eventID : string)
    (header : list string) (rows : list (list string)) (rest : csvFile) :
  Forall (λ row, length row = 3%nat) rows →
  (∀ err, commitsCsv a = inr (inr header :: (inr <$> rows) ++ inl err :: rest) →
          countCommitsByEvent a eventID = Err err)
  ∧ (∀ record, length record = length header → length record ≠ 3%nat →
       commitsCsv a = inr (inr header :: inr record :: rest) →
       countCommitsByEvent a eventID = Err ErrInvalidCommitCSV)
  ∧ (∀ err, commitsCsv a = inr (inl err :: rest) →
            countCommitsByEvent a eventID = Err err).
Proof.
  intros Hrows. unfold countCommitsByEvent. split_and!.
  - intros err ->. simpl.
    destruct (countCommitsLoop_rows_app eventID rows (inl err :: rest) 0 Hrows)
      as [total' ->]. done.
  - intros record _ Hlen ->. simpl.
    unfold NewCommitFromCSV. by rewrite decide_True.
  - by intros err ->.
Qed.

(** ** The counts in closed form *)

Lemma records_inr (recs : list (list string)) : records (inr <$> recs) = recs.
Proof.
  induction recs as [|rec recs IH]; [done |].
  unfold records in *. simpl. f_equal. exact IH.
Qed.

Lemma eventsOfActor_cons (e : Event.t) (l : list Event.t) (id : string) :
  eventsOfActor (e :: l) id =
  if decide (Event.ActorID e = id) then e :: eventsOfActor l id
  else eventsOfActor l id.
Proof. unfold eventsOfActor. by rewrite filter_cons. Qed.

Lemma eventsOnRepo_cons (e : Event.t) (l : list Event.t) (id : string) :
  eventsOnRepo (e :: l) id =
  if decide (Event.RepoID e = id) then e :: eventsOnRepo l id
  else eventsOnRepo l id.
Proof. unfold eventsOnRepo. by rewrite filter_cons. Qed.

Lemma commitsPushed_cons (rows : list (list string)) (e : Event.t)
    (l : list Event.t) :
  commitsPushed rows (e :: l) =
  if decide (Event.Type_ e = eventTypePush)
  then (matchingCommits rows (Event.ID e) + commitsPushed rows l)%Z
  else commitsPushed rows l.
Proof.
  unfold commitsPushed. rewrite filter_cons. by case_decide.
Qed.

Lemma countOfType_cons (type : string) (e : Event.t) (l : list Event.t) :
  countOfType type (e :: l) =
  if decide (Event.Type_ e = type) then (1 + countOfType type l)%Z
  else countOfType type l.
Proof.
  unfold countOfType. rewrite filter_cons. case_decide; [| done].
  simpl length. lia.
Qed.

Lemma countCommitsByEvent_rows (a : App) (eventID : string) :
  tableOk 3 (commitsCsv a) →
  (Z.of_nat (length (commitRowsOf a)) ≤ int64_max)%Z →
  countCommitsByEvent a eventID =
  Ok (matchingCommits (commitRowsOf a) eventID).
Proof.
  intros (recs & Hfile & Hrows) Hmax. unfold commitRowsOf in *.
  rewrite Hfile, records_inr in *. by apply countCommitsByEvent_count.
Qed.

Lemma countUserLoop_closed (a : App) (id : string)
    (rows : list (list string)) (tc tp : Z) :
  tableOk 3 (commitsCsv a) →
  (Z.of_nat (length (commitRowsOf a)) ≤ int64_max)%Z →
  Forall (λ row, length row = 4%nat) rows →
  in_int64 tc → in_int64 tp →
  countUserLoop a id (inr <$> rows) true tc tp =
  Ok (wrap64 (tc + commitsPushed (commitRowsOf a)
                     (eventsOfActor (eventsIn (inr <$> rows)) id)),
      wrap64 (tp + countOfType eventTypePullRequest
                     (eventsOfActor (eventsIn (inr <$> rows)) id))).
Proof.
  destruct eventTypes_distinct as (Hd1 & Hd2 & Hd3).
  intros Hct Hmax Hrows. revert tc tp.
  induction Hrows as [|row rows Hrow _ IH]; intros tc tp Htc Htp.
  { simpl. unfold eventsIn, commitsPushed, countOfType. simpl.
    by rewrite !Z.add_0_r, !wrap64_id. }
  assert (Hev : ∃ event, NewEventFromCSV row = Ok event).
  { unfold NewEventFromCSV. rewrite decide_False by (by intros ?). eauto. }
  destruct Hev as [event Hev].
  rewrite fmap_cons, (countUserLoop_event _ _ _ _ _ _ _ Hev).
  rewrite (eventsIn_cons_record _ _ _ Hev), eventsOfActor_cons.
  destruct (decide (Event.ActorID event = id)) as [Hid | Hid].
  - rewrite commitsPushed_cons, countOfType_cons.
    destruct (decide (Event.Type_ event = eventTypePush)) as [Hpush | Hpush].
    + rewrite decide_True by done.
      rewrite (decide_False (P := _ = eventTypePullRequest)) by congruence.
      rewrite countCommitsByEvent_rows by done. simpl.
      rewrite IH by (apply wrap64_in_int64 || done).
      unfold add64. rewrite wrap64_add_l. do 3 f_equal. lia.
    + rewrite decide_False by tauto.
      destruct (decide (Event.Type_ event = eventTypePullRequest)).
      * rewrite decide_True by done.
        rewrite IH by (apply wrap64_in_int64 || done).
        unfold add64. rewrite wrap64_add_l. do 3 f_equal. lia.
      * rewrite decide_False by tauto. by apply IH.
  - rewrite !decide_False by tauto. by apply IH.
Qed.

Lemma countRepoLoop_closed (a : App) (id : string)
    (rows : list (list string)) (tc tw : Z) :
  tableOk 3 (commitsCsv a) →
  (Z.of_nat (length (commitRowsOf a)) ≤ int64_max)%Z →
  Forall (λ row, length row = 4%nat) rows →
  in_int64 tc → in_int64 tw →
  countRepoLoop a id (inr <$> rows) true tc tw =
  Ok (wrap64 (tc + commitsPushed (commitRowsOf a)
                     (eventsOnRepo (eventsIn (inr <$> rows)) id)),
      wrap64 (tw + countOfType eventTypeWatch
                     (eventsOnRepo (eventsIn (inr <$> rows)) id))).
Proof.
  destruct eventTypes_distinct as (Hd1 & Hd2 & Hd3).
  intros Hct Hmax Hrows. revert tc tw.
  induction Hrows as [|row rows Hrow _ IH]; intros tc tw Htc Htw.
  { simpl. unfold eventsIn, commitsPushed, countOfType. simpl.
    by rewrite !Z.add_0_r, !wrap64_id. }
  assert (Hev : ∃ event, NewEventFromCSV row = Ok event).
  { unfold NewEventFromCSV. rewrite decide_False by (by intros ?). eauto. }
  destruct Hev as [event Hev].
  rewrite fmap_cons, (countRepoLoop_event _ _ _ _ _ _ _ Hev).
  rewrite (eventsIn_cons_record _ _ _ Hev), eventsOnRepo_cons.
  destruct (decide (Event.RepoID event = id)) as [Hid | Hid].
  - rewrite commitsPushed_cons, countOfType_cons.
    destruct (decide (Event.Type_ event = eventTypePush)) as [Hpush | Hpush].
    + rewrite decide_True by done.
      rewrite (decide_False (P := _ = eventTypeWatch)) by congruence.
      rewrite countCommitsByEvent_rows by done. simpl.
      rewrite IH by (apply wrap64_in_int64 || done).
      unfold add64. rewrite wrap64_add_l. do 3 f_equal. lia.
    + rewrite decide_False by tauto.
      destruct (decide (Event.Type_ event = eventTypeWatch)).
      * rewrite decide_True by done.
        rewrite IH by (apply wrap64_in_int64 || done).
        unfold add64. rewrite wrap64_add_l. do 3 f_equal. lia.
      * rewrite decide_False by tauto. by apply IH.
  - rewrite !decide_False by tauto. by apply IH.
Qed.

Lemma in_int64_0 : in_int64 0.
Proof. by vm_compute. Qed.

Lemma countUserRating_closed (a : App) (id : string) :
  tableOk 4 (eventsCsv a) → tableOk 3 (commitsCsv a) →
  (Z.of_nat (length (commitRowsOf a)) ≤ int64_max)%Z →
  countUserRating a id =
  Ok (wrap64 (commitsPushed (commitRowsOf a)
                (eventsOfActor (eventsOf a) id)),
      wrap64 (countOfType eventTypePullRequest
                (eventsOfActor (eventsOf a) id))).
Proof.
  intros (recs & Hfile & Hrows) Hct Hmax.
  unfold countUserRating, eventsOf. rewrite Hfile.
  destruct recs as [|header rows].
  { unfold commitsPushed, countOfType. simpl. by rewrite !wrap64_id. }
  rewrite fmap_cons.
  change (countUserLoop a id (inr header :: (inr <$> rows)) false 0 0)
    with (countUserLoop a id (inr <$> rows) true 0 0).
  rewrite (countUserLoop_closed a id rows 0 0)
    by (done || apply in_int64_0).
  by rewrite !Z.add_0_l.
Qed.

Lemma countRepoRating_closed (a : App) (id : string) :
  tableOk 4 (eventsCsv a) → tableOk 3 (commitsCsv a) →
  (Z.of_nat (length (commitRowsOf a)) ≤ int64_max)%Z →
  countRepoRating a id =
  Ok (wrap64 (commitsPushed (commitRowsOf a)
                (eventsOnRepo (eventsOf a) id)),
      wrap64 (countOfType eventTypeWatch
                (eventsOnRepo (eventsOf a) id))).
Proof.
  intros (recs & Hfile & Hrows) Hct Hmax.
  unfold countRepoRating, eventsOf. rewrite Hfile.
  destruct recs as [|header rows].
  { unfold commitsPushed, countOfType. simpl. by rewrite !wrap64_id. }
  rewrite fmap_cons.
  change (countRepoLoop a id (inr header :: (inr <$> rows)) false 0 0)
    with (countRepoLoop a id (inr <$> rows) true 0 0).
  rewrite (countRepoLoop_closed a id rows 0 0)
    by (done || apply in_int64_0).
  by rewrite !Z.add_0_l.
Qed.

(** X13.  On an event table and a commit table that read and decode,
    [countUserRating] returns, for whatever id, the commit rows of the
    Push events of that actor, summed event by event, and the number of
    PullRequest events of that actor, both as [int64] sums.  Events of
    other actors and of other types count nothing. *)
Theorem countUserRating_closed_form (a : App) (id : string) :
  tableOk 4 (eventsCsv a) → tableOk 3 (commitsCsv a) →
  (Z.of_nat (length (commitRowsOf a)) ≤ int64_max)%Z →
  countUserRating a id =
  Ok (wrap64 (commitsPushed (commitRowsOf a)
                (eventsOfActor (eventsOf a) id)),
      wrap64 (countOfType eventTypePullRequest
                (eventsOfActor (eventsOf a) id))).
Proof. apply countUserRating_closed. Qed.

(** X14.  On an event table and a commit table that read and decode,
    [countRepoRating] returns, for whatever id, the commit rows of the
    Push events on that repository, summed event by event, and the
    number of Watch events on it, both as [int64] sums. *)
Theorem countRepoRating_closed_form (a : App) (id : string) :
  tableOk 4 (eventsCsv a) → tableOk 3 (commitsCsv a) →
  (Z.of_nat (length (commitRowsOf a)) ≤ int64_max)%Z →
  countRepoRating a id =
  Ok (wrap64 (commitsPushed (commitRowsOf a)
                (eventsOnRepo (eventsOf a) id)),
      wrap64 (countOfType eventTypeWatch
                (eventsOnRepo (eventsOf a) id))).
Proof. apply countRepoRating_closed. Qed.

(** ** The single pass in closed form *)

Lemma processEvent_fresh (a : App) (event : Event.t)
    (users users' : UserStats) (repos repos' : RepoStats) :
  processEvent a event users repos = Ok (users', repos') →
  usersFresh users → reposFresh repos →
  usersFresh users' ∧ reposFresh repos'.
Proof.
  intros Hok Hu Hr. apply processEvent_Ok in Hok
    as [(Hty & c & _ & _ & -> & ->)
       | [(Hty & -> & ->) | [(Hty & -> & ->) | (_ & _ & -> & ->)]]];
    (split; [| try done]); try done;
    unfold usersFresh, reposFresh, addUserCommits, addUserPREvent,
      addRepoCommits, addRepoWatchEvent in *;
    intros k x;
    match goal with
    | |- context [match ?m !! ?i with _ => _ end] =>
        let E := fresh "E" in destruct (m !! i) eqn:E
    end;
    rewrite lookup_insert; case_decide; subst;
    try (intros [= <-]; simpl; first [by apply Hu | by apply Hr | done]);
    first [by apply Hu | by apply Hr].
Qed.

Lemma processEventsLoop_fresh (a : App) (reads : csvFile)
    (users0 users : UserStats) (repos0 repos : RepoStats) :
  processEventsLoop a reads true users0 repos0 = Ok (users, repos) →
  usersFresh users0 → reposFresh repos0 →
  usersFresh users ∧ reposFresh repos.
Proof.
  revert users0 repos0.
  induction reads as [|[err | record] reads IH]; intros users0 repos0; simpl.
  - by intros [= <- <-].
  - discriminate.
  - destruct (NewEventFromCSV record) as [event | |]; [| discriminate..].
    destruct (processEvent a event users0 repos0) as [[users1 repos1] | |]
      eqn:Hstep; simpl; [| discriminate..].
    intros Hloop Hu Hr.
    destruct (processEvent_fresh _ _ _ _ _ _ Hstep Hu Hr).
    by eapply IH.
Qed.

Lemma processEvents_fresh (a : App) (users : UserStats) (repos : RepoStats) :
  processEvents a = Ok (users, repos) → usersFresh users ∧ reposFresh repos.
Proof.
  unfold processEvents.
  destruct (eventsCsv a) as [err | [|[err | header] reads]]; simpl;
    try discriminate.
  - intros [= <- <-]. split; by intros k x.
  - intros Hloop. eapply processEventsLoop_fresh; [exact Hloop | |];
      by intros k x.
Qed.

Lemma processEventsLoop_total (a : App) (rows : list (list string))
    (users0 : UserStats) (repos0 : RepoStats) :
  tableOk 3 (commitsCsv a) →
  (Z.of_nat (length (commitRowsOf a)) ≤ int64_max)%Z →
  Forall (λ row, length row = 4%nat) rows →
  ∃ users repos,
    processEventsLoop a (inr <$> rows) true users0 repos0 = Ok (users, repos).
Proof.
  intros Hct Hmax Hrows. revert users0 repos0.
  induction Hrows as [|row rows Hrow _ IH]; intros users0 repos0.
  { by eexists _, _. }
  rewrite fmap_cons. cbn [processEventsLoop negb].
  unfold NewEventFromCSV. rewrite decide_False by (by intros ?).
  unfold processEvent. cbn [Event.Type_ Event.ID Event.ActorID Event.RepoID].
  rewrite countCommitsByEvent_rows by done.
  repeat case_decide; simpl; apply IH.
Qed.

Lemma processEvents_total (a : App) :
  tableOk 4 (eventsCsv a) → tableOk 3 (commitsCsv a) →
  (Z.of_nat (length (commitRowsOf a)) ≤ int64_max)%Z →
  ∃ users repos, processEvents a = Ok (users, repos).
Proof.
  intros (recs & Hfile & Hrows) Hct Hmax. unfold processEvents.
  rewrite Hfile. destruct recs as [|header rows]; [by eexists _, _ |].
  rewrite fmap_cons.
  change (processEventsLoop a (inr header :: (inr <$> rows)) false ∅ ∅)
    with (processEventsLoop a (inr <$> rows) true ∅ ∅).
  by apply processEventsLoop_total.
Qed.

Lemma processEvents_closed (a : App) (users : UserStats) (repos : RepoStats) :
  tableOk 4 (eventsCsv a) → tableOk 3 (commitsCsv a) →
  (Z.of_nat (length (commitRowsOf a)) ≤ int64_max)%Z →
  processEvents a = Ok (users, repos) →
  (∀ id u,
     users !! id = Some u ↔
     (∃ event, event ∈ eventsOf a
               ∧ countsForUser event ∧ Event.ActorID event = id)
     ∧ u = {| RatableUser.ID := id;
              RatableUser.Username := EmptyString;
              RatableUser.Commits :=
                wrap64 (commitsPushed (commitRowsOf a)
                          (eventsOfActor (eventsOf a) id));
              RatableUser.PREvents :=
                wrap64 (countOfType eventTypePullRequest
                          (eventsOfActor (eventsOf a) id)) |})
  ∧ (∀ id r,
       repos !! id = Some r ↔
       (∃ event, event ∈ eventsOf a
                 ∧ countsForRepo event ∧ Event.RepoID event = id)
       ∧ r = {| RepoWithCommitsAndWatches.ID := id;
                RepoWithCommitsAndWatches.Name := EmptyString;
                RepoWithCommitsAndWatches.Commits :=
                  wrap64 (commitsPushed (commitRowsOf a)
                            (eventsOnRepo (eventsOf a) id));
                RepoWithCommitsAndWatches.WatchEvents :=
                  wrap64 (countOfType eventTypeWatch
                            (eventsOnRepo (eventsOf a) id)) |}).
Proof.
  intros Het Hct Hmax Hpass.
  destruct (processEvents_fresh _ _ _ Hpass) as [Hfu Hfr].
  assert (Hu : ∀ id u, users !! id = Some u →
             u = {| RatableUser.ID := id;
                    RatableUser.Username := EmptyString;
                    RatableUser.Commits :=
                      wrap64 (commitsPushed (commitRowsOf a)
                                (eventsOfActor (eventsOf a) id));
                    RatableUser.PREvents :=
                      wrap64 (countOfType eventTypePullRequest
                                (eventsOfActor (eventsOf a) id)) |}).
  { intros id u Hl.
    destruct (processEvents_counts _ _ _ id Hpass) as [Hc _].
    rewrite countUserRating_closed in Hc by done.
    unfold userCommits, userPREvents in Hc. rewrite Hl in Hc. simpl in Hc.
    injection Hc as Hc1 Hc2. destruct (Hfu _ _ Hl) as [Hid Hname].
    destruct u; simpl in *. by subst. }
  assert (Hr : ∀ id r, repos !! id = Some r →
             r = {| RepoWithCommitsAndWatches.ID := id;
                    RepoWithCommitsAndWatches.Name := EmptyString;
                    RepoWithCommitsAndWatches.Commits :=
                      wrap64 (commitsPushed (commitRowsOf a)
                                (eventsOnRepo (eventsOf a) id));
                    RepoWithCommitsAndWatches.WatchEvents :=
                      wrap64 (countOfType eventTypeWatch
                                (eventsOnRepo (eventsOf a) id)) |}).
  { intros id r Hl.
    destruct (processEvents_counts _ _ _ id Hpass) as [_ Hc].
    rewrite countRepoRating_closed in Hc by done.
    unfold repoCommits, repoWatchEvents in Hc. rewrite Hl in Hc. simpl in Hc.
    injection Hc as Hc1 Hc2. destruct (Hfr _ _ Hl) as [Hid Hname].
    destruct r; simpl in *. by subst. }
  split; intros id x;
    destruct (processEvents_is_Some _ _ _ id Hpass) as [Hdu Hdr].
  - split.
    + intros Hl. split; [apply Hdu; by eexists | by apply Hu].
    + intros [Hex ->]. apply Hdu in Hex as [u Hl].
      by rewrite Hl, (Hu _ _ Hl).
  - split.
    + intros Hl. split; [apply Hdr; by eexists | by apply Hr].
    + intros [Hex ->]. apply Hdr in Hex as [r Hl].
      by rewrite Hl, (Hr _ _ Hl).
Qed.

(** X15.  On an event table and a commit table that read and decode, the
    single pass completes, and its two maps are these: the users map has
    an entry exactly for the actors of the Push and PullRequest events,
    carrying the id, no username, the commit rows of the actor's Push
    events and the number of the actor's PullRequest events; the repos
    map has an entry exactly for the repositories of the Push and Watch
    events, carrying the id, no name, the commit rows of the Push events
    on it and the number of Watch events on it.  Sums are [int64]
    sums. *)
Theorem single_pass_closed_form (a : App) :
  tableOk 4 (eventsCsv a) → tableOk 3 (commitsCsv a) →
  (Z.of_nat (length (commitRowsOf a)) ≤ int64_max)%Z →
  ∃ users repos,
    processEvents a = Ok (users, repos)
    ∧ (∀ id u,
         users !! id = Some u ↔
         (∃ event, event ∈ eventsOf a
                   ∧ countsForUser event ∧ Event.ActorID event = id)
         ∧ u = {| RatableUser.ID := id;
                  RatableUser.Username := EmptyString;
                  RatableUser.Commits :=
                    wrap64 (commitsPushed (commitRowsOf a)
                              (eventsOfActor (eventsOf a) id));
                  RatableUser.PREvents :=
                    wrap64 (countOfType eventTypePullRequest
                              (eventsOfActor (eventsOf a) id)) |})
    ∧ (∀ id r,
         repos !! id = Some r ↔
         (∃ event, event ∈ eventsOf a
                   ∧ countsForRepo event ∧ Event.RepoID event = id)
         ∧ r = {| RepoWithCommitsAndWatches.ID := id;
                  RepoWithCommitsAndWatches.Name := EmptyString;
                  RepoWithCommitsAndWatches.Commits :=
                    wrap64 (commitsPushed (commitRowsOf a)
                              (eventsOnRepo (eventsOf a) id));
                  RepoWithCommitsAndWatches.WatchEvents :=
                    wrap64 (countOfType eventTypeWatch
                              (eventsOnRepo (eventsOf a) id)) |}).
Proof.
  intros Het Hct Hmax.
  destruct (processEvents_total a Het Hct Hmax) as (users & repos & Hpass).
  exists users, repos. split; [done |].
  by apply processEvents_closed.
Qed.

Lemma sumZ_Permutation (l l' : list Z) : l ≡ₚ l' → sumZ l = sumZ l'.
Proof.
  induction 1 as [|x l l' _ IH|x y l|l l' l'' _ IH1 _ IH2]; simpl;
    [done | by rewrite IH | lia | congruence].
Qed.

Lemma commitsPushed_Permutation (rows : list (list string))
    (l l' : list Event.t) :
  l ≡ₚ l' → commitsPushed rows l = commitsPushed rows l'.
Proof.
  intros Hperm. unfold commitsPushed. apply sumZ_Permutation.
  by rewrite Hperm.
Qed.

Lemma countOfType_Permutation (type : string) (l l' : list Event.t) :
  l ≡ₚ l' → countOfType type l = countOfType type l'.
Proof. intros Hperm. unfold countOfType. by rewrite Hperm. Qed.

(** X16.  The order of the rows of the event table does not matter to
    the single pass: two inputs with the same commit table whose event
    tables read and decode, and hold the same events in another order,
    give the same two maps. *)
Theorem single_pass_order_irrelevant (a a' : App) :
  tableOk 4 (eventsCsv a) → tableOk 4 (eventsCsv a') →
  commitsCsv a' = commitsCsv a → tableOk 3 (commitsCsv a) →
  (Z.of_nat (length (commitRowsOf a)) ≤ int64_max)%Z →
  eventsOf a ≡ₚ eventsOf a' →
  processEvents a = processEvents a'.
Proof.
  intros Het Het' Hsame Hct Hmax Hperm.
  assert (Hrows : commitRowsOf a' = commitRowsOf a).
  { unfold commitRowsOf. by rewrite Hsame. }
  assert (Hct' : tableOk 3 (commitsCsv a')) by (by rewrite Hsame).
  assert (Hmax' : (Z.of_nat (length (commitRowsOf a')) ≤ int64_max)%Z)
    by (by rewrite Hrows).
  destruct (processEvents_total a Het Hct Hmax) as (users & repos & Hpass).
  destruct (processEvents_total a' Het' Hct' Hmax')
    as (users' & repos' & Hpass').
  rewrite Hpass, Hpass'.
  destruct (processEvents_closed a users repos Het Hct Hmax Hpass)
    as [Hu Hr].
  destruct (processEvents_closed a' users' repos' Het' Hct' Hmax' Hpass')
    as [Hu' Hr'].
  assert (Hex : ∀ P : Event.t → Prop,
             (∃ event, event ∈ eventsOf a ∧ P event)
             ↔ (∃ event, event ∈ eventsOf a' ∧ P event)).
  { intros P. split; intros (e & Hin & HP); exists e; split; try done.
    - by rewrite <- Hperm.
    - by rewrite Hperm. }
  do 2 f_equal.
  - apply map_eq. intros id. apply option_eq. intros u.
    rewrite Hu, Hu', Hrows.
    rewrite (commitsPushed_Permutation _
               (eventsOfActor (eventsOf a) id)
               (eventsOfActor (eventsOf a') id))
      by (unfold eventsOfActor; by rewrite Hperm).
    rewrite (countOfType_Permutation _
               (eventsOfActor (eventsOf a) id)
               (eventsOfActor (eventsOf a') id))
      by (unfold eventsOfActor; by rewrite Hperm).
    by rewrite (Hex (λ e, countsForUser e ∧ Event.ActorID e = id)).
  - apply map_eq. intros id. apply option_eq. intros r.
    rewrite Hr, Hr', Hrows.
    rewrite (commitsPushed_Permutation _
               (eventsOnRepo (eventsOf a) id)
               (eventsOnRepo (eventsOf a') id))
      by (unfold eventsOnRepo; by rewrite Hperm).
    rewrite (countOfType_Permutation _
               (eventsOnRepo (eventsOf a) id)
               (eventsOnRepo (eventsOf a') id))
      by (unfold eventsOnRepo; by rewrite Hperm).
    by rewrite (Hex (λ e, countsForRepo e ∧ Event.RepoID e = id)).
Qed.

(** ** More on the name passes *)

Lemma withUsername_same (u : RatableUser.t) :
  withUsername (RatableUser.Username u) u = u.
Proof. by destruct u. Qed.

Lemma withName_same (r : RepoWithCommitsAndWatches.t) :
  withName (RepoWithCommitsAndWatches.Name r) r = r.
Proof. by destruct r. Qed.

Lemma fillUsernames_shape (a : App) (users users' : UserStats) (id : string) :
  fillUsernames a users = Ok users' →
  ∃ g : RatableUser.t → string,
    users' !! id = (λ u, withUsername (g u) u) <$> users !! id.
Proof.
  unfold fillUsernames.
  destruct (actorsCsv a) as [err | [|[err | header] reads]]; simpl;
    try discriminate.
  - intros [= <-]. exists RatableUser.Username.
    destruct (users !! id) as [u|]; [| done]. simpl.
    by rewrite withUsername_same.
  - intros Hloop.
    exists (λ u, if decide (id ∈ rowIDs (records reads)) then id
                 else RatableUser.Username u).
    by apply (fillUsernamesLoop_lookup _ _ _ id) in Hloop.
Qed.

Lemma fillRepoNames_shape (a : App) (repos repos' : RepoStats) (id : string) :
  fillRepoNames a repos = Ok repos' →
  ∃ g : RepoWithCommitsAndWatches.t → string,
    repos' !! id = (λ r, withName (g r) r) <$> repos !! id.
Proof.
  unfold fillRepoNames.
  destruct (reposCsv a) as [err | [|[err | header] reads]]; simpl;
    try discriminate.
  - intros [= <-]. exists RepoWithCommitsAndWatches.Name.
    destruct (repos !! id) as [r|]; [| done]. simpl.
    by rewrite withName_same.
  - intros Hloop.
    exists (λ r, lastName (records reads) id
                   (RepoWithCommitsAndWatches.Name r)).
    by apply (fillRepoNamesLoop_lookup _ _ _ id) in Hloop.
Qed.

(** X17.  The name passes change names only: after [fillUsernames] and
    after [fillRepoNames] the map has the same keys, and every entry has
    the id field and the two counters it had. *)
Theorem name_passes_change_names_only (a : App) :
  (∀ users users' id,
     fillUsernames a users = Ok users' →
     (λ u, (RatableUser.ID u, RatableUser.Commits u, RatableUser.PREvents u))
       <$> users' !! id
     = (λ u, (RatableUser.ID u, RatableUser.Commits u,
              RatableUser.PREvents u)) <$> users !! id)
  ∧ (∀ repos repos' id,
       fillRepoNames a repos = Ok repos' →
       (λ r, (RepoWithCommitsAndWatches.ID r,
              RepoWithCommitsAndWatches.Commits r,
              RepoWithCommitsAndWatches.WatchEvents r)) <$> repos' !! id
       = (λ r, (RepoWithCommitsAndWatches.ID r,
                RepoWithCommitsAndWatches.Commits r,
                RepoWithCommitsAndWatches.WatchEvents r)) <$> repos !! id).
Proof.
  split.
  - intros users users' id Hfill.
    destruct (fillUsernames_shape _ _ _ id Hfill) as [g ->].
    by destruct (users !! id).
  - intros repos repos' id Hfill.
    destruct (fillRepoNames_shape _ _ _ id Hfill) as [g ->].
    by destruct (repos !! id).
Qed.

Lemma lastName_app (l1 l2 : list (list string)) (id name : string) :
  lastName (l1 ++ l2) id name = lastName l2 id (lastName l1 id name).
Proof. unfold lastName. apply foldl_app. Qed.

Lemma lastName_not_in (rows : list (list string)) (id name : string) :
  id ∉ rowIDs rows → lastName rows id name = name.
Proof.
  revert name. induction rows as [|row rows IH]; intros name Hnot; [done |].
  unfold rowIDs in Hnot. rewrite fmap_cons, not_elem_of_cons in Hnot.
  destruct Hnot as [Hne Hnot]. unfold lastName. simpl.
  rewrite decide_False by done. by apply IH.
Qed.

(** The name after the rows does not depend on the name before them, or
    is that name. *)
Lemma lastName_constant_or_id (rows : list (list string)) (id : string) :
  (∀ name, lastName rows id name = name)
  ∨ (∃ c, ∀ name, lastName rows id name = c).
Proof.
  induction rows as [|row rows IH]; [by left |].
  destruct (decide (field row 0 = id)) as [Heq | Hne].
  - right. exists (lastName rows id (field row 1)). intros name.
    unfold lastName. simpl. by rewrite decide_True.
  - destruct IH as [IH | [c IH]].
    + left. intros name. unfold lastName in *. simpl.
      rewrite decide_False by done. apply IH.
    + right. exists c. intros name. unfold lastName in *. simpl.
      rewrite decide_False by done. apply IH.
Qed.

Lemma lastName_idempotent (rows : list (list string)) (id name : string) :
  lastName rows id (lastName rows id name) = lastName rows id name.
Proof.
  destruct (lastName_constant_or_id rows id) as [Hid | [c Hc]].
  - by rewrite !Hid.
  - by rewrite !Hc.
Qed.

(** X18.  [fillRepoNames] names by the last row: an entry whose id no
    row of the repository table carries is left as it is, and an entry
    whose id is carried by a row that no later row repeats gets that
    row's name field and nothing else changed. *)
Theorem fillRepoNames_last_row_names (a : App) (header : list string)
    (reads : csvFile) (repos repos' : RepoStats) (id : string)
    (repo : RepoWithCommitsAndWatches.t) :
  reposCsv a = inr (inr header :: reads) →
  fillRepoNames a repos = Ok repos' →
  repos !! id = Some repo →
  (id ∉ rowIDs (records reads) → repos' !! id = Some repo)
  ∧ (∀ front row back,
       records reads = front ++ row :: back →
       field row 0 = id → id ∉ rowIDs back →
       repos' !! id = Some (withName (field row 1) repo)).
Proof.
  intros Hfile Hfill Hentry.
  rewrite (fillRepoNames_lookup a header reads repos repos' id Hfile Hfill).
  rewrite Hentry. simpl. split.
  - intros Hnot. by rewrite lastName_not_in, withName_same.
  - intros front row back -> Hid Hnot.
    rewrite lastName_app. unfold lastName at 1. simpl.
    rewrite decide_True by done.
    change (foldl _ (field row 1) back)
      with (lastName back id (field row 1)).
    by rewrite lastName_not_in.
Qed.

Lemma fillRepoNames_last_row_names_witness :
  reposCsv namedTables = inr (inr ["id"; "name"] :: [inr ["r1"; "one"]])
  ∧ fillRepoNames namedTables reposOfR1 =
    Ok {[ "r1" := withName "one"
                    {| RepoWithCommitsAndWatches.ID := "r1";
                       RepoWithCommitsAndWatches.Name := EmptyString;
                       RepoWithCommitsAndWatches.Commits := 0;
                       RepoWithCommitsAndWatches.WatchEvents := 1 |} ]}
  ∧ ("r1" ∉ rowIDs (records [inr ["r1"; "one"]]) →
     ({[ "r1" := withName "one"
                   {| RepoWithCommitsAndWatches.ID := "r1";
                      RepoWithCommitsAndWatches.Name := EmptyString;
                      RepoWithCommitsAndWatches.Commits := 0;
                      RepoWithCommitsAndWatches.WatchEvents := 1 |} ]}
        : RepoStats) !! "r1"
     = Some {| RepoWithCommitsAndWatches.ID := "r1";
               RepoWithCommitsAndWatches.Name := EmptyString;
               RepoWithCommitsAndWatches.Commits := 0;
               RepoWithCommitsAndWatches.WatchEvents := 1 |})
  ∧ (∀ front row back,
       records [inr ["r1"; "one"]] = front ++ row :: back →
       field row 0 = "r1" → "r1" ∉ rowIDs back →
       ({[ "r1" := withName "one"
                     {| RepoWithCommitsAndWatches.ID := "r1";
                        RepoWithCommitsAndWatches.Name := EmptyString;
                        RepoWithCommitsAndWatches.Commits := 0;
                        RepoWithCommitsAndWatches.WatchEvents := 1 |} ]}
          : RepoStats) !! "r1"
       = Some (withName (field row 1)
                 {| RepoWithCommitsAndWatches.ID := "r1";
                    RepoWithCommitsAndWatches.Name := EmptyString;
                    RepoWithCommitsAndWatches.Commits := 0;
                    RepoWithCommitsAndWatches.WatchEvents := 1 |})).
Proof.
  split; [reflexivity |]. split; [reflexivity |].
  apply (fillRepoNames_last_row_names namedTables ["id"; "name"]
           [inr ["r1"; "one"]] reposOfR1); reflexivity.
Defined.

Lemma fillUsernamesLoop_again (reads : csvFile) (hdr : bool)
    (users users' users2 : UserStats) :
  fillUsernamesLoop reads hdr users = Ok users' →
  ∃ users2', fillUsernamesLoop reads hdr users2 = Ok users2'.
Proof.
  revert hdr users users2.
  induction reads as [|[err | record] reads IH]; intros hdr users users2;
    simpl.
  - by eexists.
  - discriminate.
  - destruct hdr; simpl; [| by apply IH].
    destruct (NewUserFromCSV record) as [user | |]; simpl;
      [| discriminate..].
    destruct (users !! User.ID user), (users2 !! User.ID user); by apply IH.
Qed.

Lemma fillRepoNamesLoop_again (reads : csvFile) (hdr : bool)
    (repos repos' repos2 : RepoStats) :
  fillRepoNamesLoop reads hdr repos = Ok repos' →
  ∃ repos2', fillRepoNamesLoop reads hdr repos2 = Ok repos2'.
Proof.
  revert hdr repos repos2.
  induction reads as [|[err | record] reads IH]; intros hdr repos repos2;
    simpl.
  - by eexists.
  - discriminate.
  - destruct hdr; simpl; [| by apply IH].
    destruct (NewRepoFromCSV record) as [repo | |]; simpl;
      [| discriminate..].
    destruct (repos !! Repo.ID repo), (repos2 !! Repo.ID repo); by apply IH.
Qed.

(** X19.  Running a name pass a second time changes nothing: on the map
    a pass returned, the same pass over the same table succeeds and
    returns that map. *)
Theorem name_passes_idempotent (a : App) :
  (∀ users users',
     fillUsernames a users = Ok users' → fillUsernames a users' = Ok users')
  ∧ (∀ repos repos',
       fillRepoNames a repos = Ok repos' →
       fillRepoNames a repos' = Ok repos').
Proof.
  split.
  - intros users users'. unfold fillUsernames.
    destruct (actorsCsv a) as [err | [|[err | header] reads]]; simpl;
      try discriminate; [by intros [= <-] |].
    intros Hloop.
    destruct (fillUsernamesLoop_again _ _ _ _ users' Hloop)
      as [users'' Hloop'].
    rewrite Hloop'. f_equal. apply map_eq. intros id.
    rewrite (fillUsernamesLoop_lookup _ _ _ id Hloop').
    rewrite (fillUsernamesLoop_lookup _ _ _ id Hloop).
    destruct (users !! id) as [u|]; [| done]. simpl. f_equal.
    unfold withUsername. simpl. by case_decide.
  - intros repos repos'. unfold fillRepoNames.
    destruct (reposCsv a) as [err | [|[err | header] reads]]; simpl;
      try discriminate; [by intros [= <-] |].
    intros Hloop.
    destruct (fillRepoNamesLoop_again _ _ _ _ repos' Hloop)
      as [repos'' Hloop'].
    rewrite Hloop'. f_equal. apply map_eq. intros id.
    rewrite (fillRepoNamesLoop_lookup _ _ _ id Hloop').
    rewrite (fillRepoNamesLoop_lookup _ _ _ id Hloop).
    destruct (repos !! id) as [r|]; [| done]. simpl. f_equal.
    unfold withName. simpl. by rewrite lastName_idempotent.
Qed.

(** ** The ratings the strategies return *)

Lemma TryPush_Forall {A : Type} `{Ratable A} (Q : A → Prop)
    (r : Rating A) (item : A) :
  Q item → Forall Q (slice r) → Forall Q (slice (snd (TryPush r item))).
Proof.
  intros Hitem Hheld. rewrite Forall_forall in Hheld |- *. intros x Hx.
  apply (TryPushAll_subseteq [item] r) in Hx.
  apply elem_of_app in Hx as [Hx | Hx]; [by apply Hheld |].
  apply list_elem_of_singleton in Hx. by subst.
Qed.

Lemma TryPush_ranked {A : Type} `{Ratable A} (r : Rating A) (item : A) :
  (∀ x : A, scored x) → ranked r → ranked (snd (TryPush r item)).
Proof.
  intros Hall (Hsize & Hlen & Hdesc). unfold ranked.
  rewrite TryPush_size, Hsize. split_and!; [done | |].
  - rewrite <- Hsize. apply TryPush_length; lia.
  - apply TryPush_descending; [apply Hall | | done].
    rewrite Forall_forall. intros x _. apply Hall.
Qed.

Lemma TryPushAll_ranked {A : Type} `{Ratable A} (items : list A)
    (r : Rating A) :
  (∀ x : A, scored x) → ranked r → ranked (TryPushAll r items).
Proof.
  intros Hall. revert r. induction items as [|item items IH]; intros r Hr;
    [done |].
  unfold TryPushAll in *. simpl. apply IH. by apply TryPush_ranked.
Qed.

Lemma NewRating_ranked {A : Type} `{Ratable A} : ranked (NewRating (A := A) 10).
Proof. unfold ranked. simpl. split_and!; [done | lia | constructor]. Qed.

Lemma RatableUser_scored (u : RatableUser.t) : scored u.
Proof. apply float64_of_int64_not_nan. Qed.
Lemma CommitRatableRepo_scored (r : CommitRatableRepo.t) : scored r.
Proof. apply float64_of_int64_not_nan. Qed.
Lemma WatchRatableRepo_scored (r : WatchRatableRepo.t) : scored r.
Proof. apply float64_of_int64_not_nan. Qed.

Lemma rateUsersLoop_ranked (a : App) (reads : csvFile) (hdr : bool)
    (rating rating' : Rating RatableUser.t) :
  rateUsersLoop a reads hdr rating = Ok rating' →
  ranked rating → ranked rating'.
Proof.
  revert hdr rating.
  induction reads as [|[err | record] reads IH]; intros hdr rating; simpl.
  - by intros [= <-].
  - discriminate.
  - destruct hdr; simpl; [| by apply IH].
    destruct (NewUserFromCSV record) as [user | |]; simpl;
      [| discriminate..].
    destruct (countUserRating a (User.ID user)) as [[c p] | |]; simpl;
      [| discriminate..].
    intros Hloop Hr. eapply IH; [exact Hloop |].
    apply TryPush_ranked; [apply RatableUser_scored | done].
Qed.

Lemma rateReposLoop_ranked (a : App) (reads : csvFile) (hdr : bool)
    (cr cr' : Rating CommitRatableRepo.t)
    (wr wr' : Rating WatchRatableRepo.t) :
  rateReposLoop a reads hdr cr wr = Ok (cr', wr') →
  ranked cr → ranked wr → ranked cr' ∧ ranked wr'.
Proof.
  revert hdr cr wr.
  induction reads as [|[err | record] reads IH]; intros hdr cr wr; simpl.
  - by intros [= <- <-].
  - discriminate.
  - destruct hdr; simpl; [| by apply IH].
    destruct (NewRepoFromCSV record) as [repo | |]; simpl;
      [| discriminate..].
    destruct (countRepoRating a (Repo.ID repo)) as [[c w] | |]; simpl;
      [| discriminate..].
    intros Hloop Hc Hw. eapply IH; [exact Hloop | |].
    + apply TryPush_ranked; [apply CommitRatableRepo_scored | done].
    + apply TryPush_ranked; [apply WatchRatableRepo_scored | done].
Qed.

Lemma SpaceOptimizedRatings_Ok (a : App) (ur : Rating RatableUser.t)
    (cr : Rating CommitRatableRepo.t) (wr : Rating WatchRatableRepo.t) :
  SpaceOptimizedRatings a = Ok (ur, cr, wr) →
  rateUsersByPRsAndCommitsSpaceOptimized a = Ok ur
  ∧ rateReposByCommitsAndWatchesSpaceOptimized a = Ok (cr, wr).
Proof.
  unfold SpaceOptimizedRatings.
  destruct (rateUsersByPRsAndCommitsSpaceOptimized a) as [ur' | |]; simpl;
    [| discriminate..].
  destruct (rateReposByCommitsAndWatchesSpaceOptimized a)
    as [[cr' wr'] | |]; simpl; [| discriminate..].
  by intros [= <- <- <-].
Qed.

(** X20.  Each of the three ratings strategy A returns has capacity 10,
    holds at most 10 items and is non-increasing by score. *)
Theorem strategy_A_ratings_ranked (a : App) (ur : Rating RatableUser.t)
    (cr : Rating CommitRatableRepo.t) (wr : Rating WatchRatableRepo.t) :
  SpaceOptimizedRatings a = Ok (ur, cr, wr) →
  ranked ur ∧ ranked cr ∧ ranked wr.
Proof.
  intros Hso. apply SpaceOptimizedRatings_Ok in Hso as [Hu Hr].
  unfold rateUsersByPRsAndCommitsSpaceOptimized in Hu.
  unfold rateReposByCommitsAndWatchesSpaceOptimized in Hr.
  destruct (actorsCsv a) as [|ureads]; [discriminate |].
  destruct (reposCsv a) as [|rreads]; [discriminate |].
  apply rateUsersLoop_ranked in Hu; [| apply NewRating_ranked].
  apply rateReposLoop_ranked in Hr; try apply NewRating_ranked.
  tauto.
Qed.

(** X21.  Each of the three ratings strategy B returns has capacity
    10, holds at most 10 items and is non-increasing by score, in
    whatever order the two maps are ranged over. *)
Theorem strategy_B_ratings_ranked
    (rangeOrder : ∀ V : Type, gmap string V → list V) (a : App)
    (ur : Rating RatableUser.t) (cr : Rating CommitRatableRepo.t)
    (wr : Rating WatchRatableRepo.t) :
  PerformanceOptimizedRatings rangeOrder a = Ok (ur, cr, wr) →
  ranked ur ∧ ranked cr ∧ ranked wr.
Proof.
  unfold PerformanceOptimizedRatings.
  destruct (PerformanceOptimizedStats a) as [[users repos] | |]; simpl;
    [| discriminate..].
  intros [= <- <- <-]. split_and!.
  - apply TryPushAll_ranked; [apply RatableUser_scored |].
    apply NewRating_ranked.
  - apply TryPushAll_ranked; [apply CommitRatableRepo_scored |].
    apply NewRating_ranked.
  - apply TryPushAll_ranked; [apply WatchRatableRepo_scored |].
    apply NewRating_ranked.
Qed.

Lemma rateUsersLoop_sound (a : App) (rows : list (list string))
    (reads : csvFile) (hdr : bool) (rating rating' : Rating RatableUser.t) :
  rateUsersLoop a reads hdr rating = Ok rating' →
  (∀ row, row ∈ (if hdr then records reads else tail (records reads)) →
          row ∈ rows) →
  Forall (ratedUser a rows) (slice rating) →
  Forall (ratedUser a rows) (slice rating').
Proof.
  revert hdr rating.
  induction reads as [|[err | record] reads IH]; intros hdr rating; simpl.
  - by intros [= <-].
  - discriminate.
  - destruct hdr; simpl.
    + unfold NewUserFromCSV. case_decide as Hlen; [discriminate |]. simpl.
      destruct (countUserRating a (field record 0)) as [[c p] | |] eqn:Hc;
        simpl; [| discriminate..].
      intros Hloop Hrows Hheld. eapply (IH true); [exact Hloop | |].
      * intros row Hrow. apply Hrows. unfold records. simpl. by right.
      * apply TryPush_Forall; [| done].
        exists record. simpl. split_and!; try done.
        apply Hrows. unfold records. simpl. by left.
    + intros Hloop Hrows Hheld. eapply (IH true); [exact Hloop | | done].
      intros row Hrow. apply Hrows. by unfold records in *.
Qed.

Lemma rateReposLoop_sound (a : App) (rows : list (list string))
    (reads : csvFile) (hdr : bool)
    (cr cr' : Rating CommitRatableRepo.t)
    (wr wr' : Rating WatchRatableRepo.t) :
  rateReposLoop a reads hdr cr wr = Ok (cr', wr') →
  (∀ row, row ∈ (if hdr then records reads else tail (records reads)) →
          row ∈ rows) →
  Forall (ratedByCommits a rows) (slice cr) →
  Forall (ratedByWatches a rows) (slice wr) →
  Forall (ratedByCommits a rows) (slice cr')
  ∧ Forall (ratedByWatches a rows) (slice wr').
Proof.
  revert hdr cr wr.
  induction reads as [|[err | record] reads IH]; intros hdr cr wr; simpl.
  - by intros [= <- <-].
  - discriminate.
  - destruct hdr; simpl.
    + unfold NewRepoFromCSV. case_decide as Hlen; [discriminate |]. simpl.
      destruct (countRepoRating a (field record 0)) as [[c w] | |] eqn:Hc;
        simpl; [| discriminate..].
      intros Hloop Hrows Hc' Hw'.
      assert (Hin : record ∈ rows).
      { apply Hrows. unfold records. simpl. by left. }
      eapply (IH true); [exact Hloop | | |].
      * intros row Hrow. apply Hrows. unfold records. simpl. by right.
      * apply TryPush_Forall; [| done].
        exists record, w. simpl. by split_and!.
      * apply TryPush_Forall; [| done].
        exists record, c. simpl. by split_and!.
    + intros Hloop Hrows Hc' Hw'.
      eapply (IH true); [exact Hloop | | done | done].
      intros row Hrow. apply Hrows. by unfold records in *.
Qed.

(** X22.  Every item of a rating strategy A returns stands for a row of
    its table: a rated user carries the id and the username of a row of
    the user table and the commits and pull-request events that
    [countUserRating] returns for the id; a rated repository carries the
    id and the name of a row of the repository table and the commits,
    or the watch events, that [countRepoRating] returns for the id. *)
Theorem strategy_A_rates_table_rows (a : App) (ur : Rating RatableUser.t)
    (cr : Rating CommitRatableRepo.t) (wr : Rating WatchRatableRepo.t) :
  SpaceOptimizedRatings a = Ok (ur, cr, wr) →
  Forall (ratedUser a (rowsOf (actorsCsv a))) (slice ur)
  ∧ Forall (ratedByCommits a (rowsOf (reposCsv a))) (slice cr)
  ∧ Forall (ratedByWatches a (rowsOf (reposCsv a))) (slice wr).
Proof.
  intros Hso. apply SpaceOptimizedRatings_Ok in Hso as [Hu Hr].
  unfold rateUsersByPRsAndCommitsSpaceOptimized in Hu.
  unfold rateReposByCommitsAndWatchesSpaceOptimized in Hr.
  destruct (actorsCsv a) as [|ureads]; [discriminate |].
  destruct (reposCsv a) as [|rreads]; [discriminate |].
  simpl rowsOf. split.
  - eapply rateUsersLoop_sound; [exact Hu | done | constructor].
  - eapply rateReposLoop_sound; [exact Hr | done | constructor..].
Qed.

Lemma rateUsersLoop_tableOk (a : App) (reads : csvFile) (hdr : bool)
    (rating rating' : Rating RatableUser.t) :
  rateUsersLoop a reads hdr rating = Ok rating' →
  ∃ recs, reads = inr <$> recs
          ∧ Forall (λ row, length row = 2%nat)
              (if hdr then recs else tail recs).
Proof.
  revert hdr rating.
  induction reads as [|[err | record] reads IH]; intros hdr rating; simpl.
  - intros _. exists []. split; [done |]. destruct hdr; constructor.
  - discriminate.
  - destruct hdr; simpl.
    + unfold NewUserFromCSV. case_decide as Hlen; [discriminate |]. simpl.
      destruct (countUserRating a (field record 0)) as [[c p] | |];
        simpl; [| discriminate..].
      intros Hloop. apply IH in Hloop as (recs & -> & Hrows).
      exists (record :: recs). split; [done |]. by constructor.
    + intros Hloop. apply IH in Hloop as (recs & -> & Hrows).
      by exists (record :: recs).
Qed.

Lemma rateReposLoop_tableOk (a : App) (reads : csvFile) (hdr : bool)
    (cr : Rating CommitRatableRepo.t) (wr : Rating WatchRatableRepo.t)
    (res : Rating CommitRatableRepo.t * Rating WatchRatableRepo.t) :
  rateReposLoop a reads hdr cr wr = Ok res →
  ∃ recs, reads = inr <$> recs
          ∧ Forall (λ row, length row = 2%nat)
              (if hdr then recs else tail recs).
Proof.
  revert hdr cr wr.
  induction reads as [|[err | record] reads IH]; intros hdr cr wr; simpl.
  - intros _. exists []. split; [done |]. destruct hdr; constructor.
  - discriminate.
  - destruct hdr; simpl.
    + unfold NewRepoFromCSV. case_decide as Hlen; [discriminate |]. simpl.
      destruct (countRepoRating a (field record 0)) as [[c w] | |];
        simpl; [| discriminate..].
      intros Hloop. apply IH in Hloop as (recs & -> & Hrows).
      exists (record :: recs). split; [done |]. by constructor.
    + intros Hloop. apply IH in Hloop as (recs & -> & Hrows).
      by exists (record :: recs).
Qed.

(** X23.  Strategy A returns ratings only from a user table and a
    repository table that read to their end without a failure and whose
    rows have two fields each. *)
Theorem strategy_A_needs_sound_tables (a : App) (ratings : Ratings) :
  SpaceOptimizedRatings a = Ok ratings →
  tableOk 2 (actorsCsv a) ∧ tableOk 2 (reposCsv a).
Proof.
  destruct ratings as [[ur cr] wr].
  intros Hso. apply SpaceOptimizedRatings_Ok in Hso as [Hu Hr].
  unfold rateUsersByPRsAndCommitsSpaceOptimized in Hu.
  unfold rateReposByCommitsAndWatchesSpaceOptimized in Hr.
  destruct (actorsCsv a) as [|ureads]; [discriminate |].
  destruct (reposCsv a) as [|rreads]; [discriminate |].
  apply rateUsersLoop_tableOk in Hu as (urecs & -> & Hurows).
  apply rateReposLoop_tableOk in Hr as (rrecs & -> & Hrrows).
  split; [by exists urecs | by exists rrecs].
Qed.

Lemma processEventsLoop_tableOk (a : App) (reads : csvFile) (hdr : bool)
    (users : UserStats) (repos : RepoStats) (st : UserStats * RepoStats) :
  processEventsLoop a reads hdr users repos = Ok st →
  ∃ recs, reads = inr <$> recs
          ∧ Forall (λ row, length row = 4%nat)
              (if hdr then recs else tail recs).
Proof.
  revert hdr users repos.
  induction reads as [|[err | record] reads IH]; intros hdr users repos;
    simpl.
  - intros _. exists []. split; [done |]. destruct hdr; constructor.
  - discriminate.
  - destruct hdr; simpl.
    + unfold NewEventFromCSV. case_decide as Hlen; [discriminate |].
      destruct (processEvent a _ users repos) as [[users1 repos1] | |];
        simpl; [| discriminate..].
      intros Hloop. apply IH in Hloop as (recs & -> & Hrows).
      exists (record :: recs). split; [done |]. by constructor.
    + intros Hloop. apply IH in Hloop as (recs & -> & Hrows).
      by exists (record :: recs).
Qed.

Lemma fillUsernamesLoop_tableOk (reads : csvFile) (hdr : bool)
    (users users' : UserStats) :
  fillUsernamesLoop reads hdr users = Ok users' →
  ∃ recs, reads = inr <$> recs
          ∧ Forall (λ row, length row = 2%nat)
              (if hdr then recs else tail recs).
Proof.
  revert hdr users.
  induction reads as [|[err | record] reads IH]; intros hdr users; simpl.
  - intros _. exists []. split; [done |]. destruct hdr; constructor.
  - discriminate.
  - destruct hdr; simpl.
    + unfold NewUserFromCSV. case_decide as Hlen; [discriminate |]. simpl.
      intros Hloop.
      assert (∃ users1, fillUsernamesLoop reads true users1 = Ok users')
        as [users1 Hloop1] by (destruct (users !! _); eauto).
      apply IH in Hloop1 as (recs & -> & Hrows).
      exists (record :: recs). split; [done |]. by constructor.
    + intros Hloop. apply IH in Hloop as (recs & -> & Hrows).
      by exists (record :: recs).
Qed.

Lemma fillRepoNamesLoop_tableOk (reads : csvFile) (hdr : bool)
    (repos repos' : RepoStats) :
  fillRepoNamesLoop reads hdr repos = Ok repos' →
  ∃ recs, reads = inr <$> recs
          ∧ Forall (λ row, length row = 2%nat)
              (if hdr then recs else tail recs).
Proof.
  revert hdr repos.
  induction reads as [|[err | record] reads IH]; intros hdr repos; simpl.
  - intros _. exists []. split; [done |]. destruct hdr; constructor.
  - discriminate.
  - destruct hdr; simpl.
    + unfold NewRepoFromCSV. case_decide as Hlen; [discriminate |]. simpl.
      intros Hloop.
      assert (∃ repos1, fillRepoNamesLoop reads true repos1 = Ok repos')
        as [repos1 Hloop1] by (destruct (repos !! _); eauto).
      apply IH in Hloop1 as (recs & -> & Hrows).
      exists (record :: recs). split; [done |]. by constructor.
    + intros Hloop. apply IH in Hloop as (recs & -> & Hrows).
      by exists (record :: recs).
Qed.

(** X24.  Strategy B returns ratings only from an event table, a user
    table and a repository table that read to their end without a
    failure and whose rows have four, two and two fields. *)
Theorem strategy_B_needs_sound_tables
    (rangeOrder : ∀ V : Type, gmap string V → list V) (a : App)
    (ratings : Ratings) :
  PerformanceOptimizedRatings rangeOrder a = Ok ratings →
  tableOk 4 (eventsCsv a) ∧ tableOk 2 (actorsCsv a)
  ∧ tableOk 2 (reposCsv a).
Proof.
  unfold PerformanceOptimizedRatings.
  destruct (PerformanceOptimizedStats a) as [[users repos] | |] eqn:Hstats;
    simpl; [| discriminate..].
  intros _. apply PerformanceOptimizedStats_Ok in Hstats
    as (users0 & repos0 & Hpass & Hu & Hr).
  unfold processEvents in Hpass. unfold fillUsernames in Hu.
  unfold fillRepoNames in Hr.
  destruct (eventsCsv a) as [|ereads]; [discriminate |].
  destruct (actorsCsv a) as [|ureads]; [discriminate |].
  destruct (reposCsv a) as [|rreads]; [discriminate |].
  apply processEventsLoop_tableOk in Hpass as (erecs & -> & Herows).
  apply fillUsernamesLoop_tableOk in Hu as (urecs & -> & Hurows).
  apply fillRepoNamesLoop_tableOk in Hr as (rrecs & -> & Hrrows).
  split_and!; [by exists erecs | by exists urecs | by exists rrecs].
Qed.

Lemma PerformanceOptimizedStats_counts (a : App)
    (users : UserStats) (repos : RepoStats) (id : string) :
  PerformanceOptimizedStats a = Ok (users, repos) →
  countUserRating a id = Ok (userCommits users id, userPREvents users id)
  ∧ countRepoRating a id =
    Ok (repoCommits repos id, repoWatchEvents repos id).
Proof.
  intros Hstats.
  apply PerformanceOptimizedStats_Ok in Hstats
    as (users0 & repos0 & Hpass & Hu & Hr).
  apply (fillUsernames_counters _ _ _ id) in Hu as (-> & -> & _).
  apply (fillRepoNames_counters _ _ _ id) in Hr as (-> & -> & _).
  by apply processEvents_counts.
Qed.

Lemma PerformanceOptimizedStats_ids (a : App)
    (users : UserStats) (repos : RepoStats) :
  PerformanceOptimizedStats a = Ok (users, repos) →
  (∀ k u, users !! k = Some u → RatableUser.ID u = k)
  ∧ (∀ k r, repos !! k = Some r → RepoWithCommitsAndWatches.ID r = k).
Proof.
  intros Hstats.
  apply PerformanceOptimizedStats_Ok in Hstats
    as (users0 & repos0 & Hpass & Hu & Hr).
  destruct (processEvents_fresh _ _ _ Hpass) as [Hfu Hfr].
  split.
  - intros k u Hl.
    destruct (fillUsernames_shape _ _ _ k Hu) as [g Hshape].
    rewrite Hl in Hshape. destruct (users0 !! k) as [u0|] eqn:Hl0;
      [| discriminate].
    injection Hshape as ->. simpl. by apply (Hfu k u0).
  - intros k r Hl.
    destruct (fillRepoNames_shape _ _ _ k Hr) as [g Hshape].
    rewrite Hl in Hshape. destruct (repos0 !! k) as [r0|] eqn:Hl0;
      [| discriminate].
    injection Hshape as ->. simpl. by apply (Hfr k r0).
Qed.

(** X25.  When the maps are ranged over soundly, every item of a rating
    strategy B returns is backed by the events: a rated user is the
    actor of a Push or PullRequest event and carries the commits and
    pull-request events a rescan of the events gives for its id; a
    repository rated by commits or by watches is the repository of a
    Push or Watch event and carries the commits, or the watch events,
    such a rescan gives. *)
Theorem strategy_B_rates_counted_ids
    (rangeOrder : ∀ V : Type, gmap string V → list V) (a : App)
    (ur : Rating RatableUser.t) (cr : Rating CommitRatableRepo.t)
    (wr : Rating WatchRatableRepo.t) :
  rangeSound rangeOrder →
  PerformanceOptimizedRatings rangeOrder a = Ok (ur, cr, wr) →
  Forall (λ u,
            (∃ event, event ∈ eventsOf a ∧ countsForUser event
                      ∧ Event.ActorID event = RatableUser.ID u)
            ∧ countUserRating a (RatableUser.ID u)
              = Ok (RatableUser.Commits u, RatableUser.PREvents u))
    (slice ur)
  ∧ Forall (λ c,
              (∃ event, event ∈ eventsOf a ∧ countsForRepo event
                        ∧ Event.RepoID event = CommitRatableRepo.ID c)
              ∧ ∃ w, countRepoRating a (CommitRatableRepo.ID c)
                     = Ok (CommitRatableRepo.Commits c, w))
      (slice cr)
  ∧ Forall (λ w,
              (∃ event, event ∈ eventsOf a ∧ countsForRepo event
                        ∧ Event.RepoID event = WatchRatableRepo.ID w)
              ∧ ∃ c, countRepoRating a (WatchRatableRepo.ID w)
                     = Ok (c, WatchRatableRepo.WatchEvents w))
      (slice wr).
Proof.
  intros Hsound. unfold PerformanceOptimizedRatings.
  destruct (PerformanceOptimizedStats a) as [[users repos] | |] eqn:Hstats;
    simpl; [| discriminate..].
  intros [= <- <- <-].
  destruct (PerformanceOptimizedStats_ids _ _ _ Hstats) as [Hidu Hidr].
  split_and!; rewrite Forall_forall; intros x Hx;
    apply (TryPushAll_subseteq _ (NewRating 10)) in Hx; simpl in Hx.
  - apply Hsound in Hx as [k Hl]. pose proof (Hidu _ _ Hl) as Hid.
    destruct (PerformanceOptimizedStats_entries _ _ _ k Hstats) as [He _].
    destruct (PerformanceOptimizedStats_counts _ _ _ k Hstats) as [Hc _].
    unfold userCommits, userPREvents in Hc. rewrite Hl in Hc. simpl in Hc.
    rewrite Hid. split; [| done]. apply He. by eexists.
  - apply list_elem_of_fmap in Hx as (r & -> & Hr). simpl.
    apply Hsound in Hr as [k Hl]. pose proof (Hidr _ _ Hl) as Hid.
    destruct (PerformanceOptimizedStats_entries _ _ _ k Hstats) as [_ He].
    destruct (PerformanceOptimizedStats_counts _ _ _ k Hstats) as [_ Hc].
    unfold repoCommits, repoWatchEvents in Hc. rewrite Hl in Hc.
    simpl in Hc. rewrite Hid. split; [apply He; by eexists | by eexists].
  - apply list_elem_of_fmap in Hx as (r & -> & Hr). simpl.
    apply Hsound in Hr as [k Hl]. pose proof (Hidr _ _ Hl) as Hid.
    destruct (PerformanceOptimizedStats_entries _ _ _ k Hstats) as [_ He].
    destruct (PerformanceOptimizedStats_counts _ _ _ k Hstats) as [_ Hc].
    unfold repoCommits, repoWatchEvents in Hc. rewrite Hl in Hc.
    simpl in Hc. rewrite Hid. split; [apply He; by eexists | by eexists].
Qed.

(** ** The further properties on sample inputs *)

Lemma scenarioOffers_scored : Forall scored scenarioOffers.
Proof. repeat constructor; apply CommitRatableRepo_scored. Qed.

Lemma keyOrder_sound : rangeSound keyOrder.
Proof.
  intros V m v Hv. unfold keyOrder in Hv.
  apply list_elem_of_fmap in Hv as ([k v'] & -> & Hin).
  apply elem_of_map_to_list in Hin. by exists k.
Qed.

Lemma scenario_events_ok : tableOk 4 (eventsCsv scenarioTables).
Proof.
  exists [["id"; "type"; "actor_id"; "repo_id"];
          ["e1"; "PushEvent"; "u1"; "r1"]].
  split; [reflexivity | by repeat constructor].
Qed.

Lemma scenario_commits_ok : tableOk 3 (commitsCsv scenarioTables).
Proof.
  exists (["sha"; "message"; "event_id"] :: commitRowsE1).
  split; [reflexivity | by repeat constructor].
Qed.

Lemma scenario_commits_few :
  (Z.of_nat (length (commitRowsOf scenarioTables)) ≤ int64_max)%Z.
Proof. by vm_compute. Qed.

Lemma TryPush_true_holds_item_witness :
  (length (slice ratingOfOne) ≤ size ratingOfOne)%nat
  ∧ fst (TryPush ratingOfOne (candidate "d" 8)) = true
  ∧ candidate "d" 8 ∈ slice (snd (TryPush ratingOfOne (candidate "d" 8))).
Proof.
  split; [simpl; lia |]. split; [reflexivity |].
  apply (TryPush_true_holds_item ratingOfOne (candidate "d" 8));
    [simpl; lia | reflexivity].
Defined.

Lemma NewRating_within_capacity_witness :
  (1 ≤ 3)%nat
  ∧ (length (slice (TryPushAll (NewRating 3) scenarioOffers)) ≤ 3)%nat.
Proof.
  split; [lia |]. apply (NewRating_within_capacity 3 scenarioOffers). lia.
Defined.

Lemma NewRating_descending_witness :
  Forall scored scenarioOffers
  ∧ descending (slice (TryPushAll (NewRating 3) scenarioOffers)).
Proof.
  split; [apply scenarioOffers_scored |].
  apply (NewRating_descending 3 scenarioOffers), scenarioOffers_scored.
Defined.

Lemma NewRating_head_is_best_witness :
  (1 ≤ 3)%nat ∧ scenarioOffers ≠ [] ∧ Forall scored scenarioOffers
  ∧ ∃ top rest,
      slice (TryPushAll (NewRating 3) scenarioOffers) = top :: rest
      ∧ top ∈ scenarioOffers
      ∧ Forall (score_ge top) scenarioOffers.
Proof.
  split; [lia |]. split; [discriminate |].
  split; [apply scenarioOffers_scored |].
  apply (NewRating_head_is_best 3 scenarioOffers);
    [lia | discriminate | apply scenarioOffers_scored].
Defined.

Lemma countCommitsByEvent_first_failure_witness :
  Forall (λ row, length row = 3%nat) [["h1"; "m"; "e1"]]
  ∧ countCommitsByEvent cutCommitsTables "e9"
    = Err (ErrIO "record on line 3: wrong number of fields")
  ∧ countCommitsByEvent narrowCommitsTables "e9" = Err ErrInvalidCommitCSV.
Proof.
  split; [by repeat constructor |]. split.
  - destruct (countCommitsByEvent_first_failure cutCommitsTables "e9"
                ["sha"; "message"; "event_id"] [["h1"; "m"; "e1"]]
                [inr ["h3"; "m"; "e1"]]) as (Hread & _ & _).
    + by repeat constructor.
    + apply (Hread (ErrIO "record on line 3: wrong number of fields")).
      reflexivity.
  - destruct (countCommitsByEvent_first_failure narrowCommitsTables "e9"
                ["sha"; "message"] [] [inr ["h2"; "m"]]) as (_ & Hrow & _).
    + constructor.
    + apply (Hrow ["h1"; "m"]); [reflexivity | simpl; lia | reflexivity].
Defined.

Lemma countUserRating_closed_form_witness :
  tableOk 4 (eventsCsv scenarioTables)
  ∧ tableOk 3 (commitsCsv scenarioTables)
  ∧ (Z.of_nat (length (commitRowsOf scenarioTables)) ≤ int64_max)%Z
  ∧ countUserRating scenarioTables "u1" =
    Ok (wrap64 (commitsPushed (commitRowsOf scenarioTables)
                  (eventsOfActor (eventsOf scenarioTables) "u1")),
        wrap64 (countOfType eventTypePullRequest
                  (eventsOfActor (eventsOf scenarioTables) "u1"))).
Proof.
  split; [apply scenario_events_ok |].
  split; [apply scenario_commits_ok |].
  split; [apply scenario_commits_few |].
  apply (countUserRating_closed_form scenarioTables "u1");
    [apply scenario_events_ok | apply scenario_commits_ok
    | apply scenario_commits_few].
Defined.

Lemma countRepoRating_closed_form_witness :
  tableOk 4 (eventsCsv scenarioTables)
  ∧ tableOk 3 (commitsCsv scenarioTables)
  ∧ (Z.of_nat (length (commitRowsOf scenarioTables)) ≤ int64_max)%Z
  ∧ countRepoRating scenarioTables "r1" =
    Ok (wrap64 (commitsPushed (commitRowsOf scenarioTables)
                  (eventsOnRepo (eventsOf scenarioTables) "r1")),
        wrap64 (countOfType eventTypeWatch
                  (eventsOnRepo (eventsOf scenarioTables) "r1"))).
Proof.
  split; [apply scenario_events_ok |].
  split; [apply scenario_commits_ok |].
  split; [apply scenario_commits_few |].
  apply (countRepoRating_closed_form scenarioTables "r1");
    [apply scenario_events_ok | apply scenario_commits_ok
    | apply scenario_commits_few].
Defined.

Lemma single_pass_closed_form_witness :
  tableOk 4 (eventsCsv scenarioTables)
  ∧ tableOk 3 (commitsCsv scenarioTables)
  ∧ (Z.of_nat (length (commitRowsOf scenarioTables)) ≤ int64_max)%Z
  ∧ ∃ users repos,
      processEvents scenarioTables = Ok (users, repos)
      ∧ (∀ id u,
           users !! id = Some u ↔
           (∃ event, event ∈ eventsOf scenarioTables
                     ∧ countsForUser event ∧ Event.ActorID event = id)
           ∧ u = {| RatableUser.ID := id;
                    RatableUser.Username := EmptyString;
                    RatableUser.Commits :=
                      wrap64 (commitsPushed (commitRowsOf scenarioTables)
                                (eventsOfActor (eventsOf scenarioTables) id));
                    RatableUser.PREvents :=
                      wrap64 (countOfType eventTypePullRequest
                                (eventsOfActor (eventsOf scenarioTables) id))
                 |})
      ∧ (∀ id r,
           repos !! id = Some r ↔
           (∃ event, event ∈ eventsOf scenarioTables
                     ∧ countsForRepo event ∧ Event.RepoID event = id)
           ∧ r = {| RepoWithCommitsAndWatches.ID := id;
                    RepoWithCommitsAndWatches.Name := EmptyString;
                    RepoWithCommitsAndWatches.Commits :=
                      wrap64 (commitsPushed (commitRowsOf scenarioTables)
                                (eventsOnRepo (eventsOf scenarioTables) id));
                    RepoWithCommitsAndWatches.WatchEvents :=
                      wrap64 (countOfType eventTypeWatch
                                (eventsOnRepo (eventsOf scenarioTables) id))
                 |}).
Proof.
  split; [apply scenario_events_ok |].
  split; [apply scenario_commits_ok |].
  split; [apply scenario_commits_few |].
  apply (single_pass_closed_form scenarioTables);
    [apply scenario_events_ok | apply scenario_commits_ok
    | apply scenario_commits_few].
Defined.

Lemma single_pass_order_irrelevant_witness :
  tableOk 4 (eventsCsv watchThenPushTables)
  ∧ tableOk 4 (eventsCsv pushThenWatchTables)
  ∧ commitsCsv pushThenWatchTables = commitsCsv watchThenPushTables
  ∧ tableOk 3 (commitsCsv watchThenPushTables)
  ∧ (Z.of_nat (length (commitRowsOf watchThenPushTables)) ≤ int64_max)%Z
  ∧ eventsOf watchThenPushTables ≡ₚ eventsOf pushThenWatchTables
  ∧ processEvents watchThenPushTables = processEvents pushThenWatchTables.
Proof.
  assert (H1 : tableOk 4 (eventsCsv watchThenPushTables)).
  { exists [["id"; "type"; "actor_id"; "repo_id"];
            ["e2"; "WatchEvent"; "u2"; "r1"];
            ["e1"; "PushEvent"; "u1"; "r1"]].
    split; [reflexivity | by repeat constructor]. }
  assert (H2 : tableOk 4 (eventsCsv pushThenWatchTables)).
  { exists [["id"; "type"; "actor_id"; "repo_id"];
            ["e1"; "PushEvent"; "u1"; "r1"];
            ["e2"; "WatchEvent"; "u2"; "r1"]].
    split; [reflexivity | by repeat constructor]. }
  assert (H3 : tableOk 3 (commitsCsv watchThenPushTables)).
  { exists (["sha"; "message"; "event_id"] :: commitRowsE1).
    split; [reflexivity | by repeat constructor]. }
  assert (H4 : (Z.of_nat (length (commitRowsOf watchThenPushTables))
                ≤ int64_max)%Z) by (by vm_compute).
  assert (H5 : eventsOf watchThenPushTables
               ≡ₚ eventsOf pushThenWatchTables) by apply perm_swap.
  split; [exact H1 |]. split; [exact H2 |]. split; [reflexivity |].
  split; [exact H3 |]. split; [exact H4 |]. split; [exact H5 |].
  apply (single_pass_order_irrelevant watchThenPushTables
           pushThenWatchTables H1 H2 eq_refl H3 H4 H5).
Defined.

Lemma strategy_A_ratings_ranked_witness :
  SpaceOptimizedRatings scenarioTables = Ok scenarioRatingsA
  ∧ ranked (fst (fst scenarioRatingsA))
  ∧ ranked (snd (fst scenarioRatingsA))
  ∧ ranked (snd scenarioRatingsA).
Proof.
  split; [reflexivity |].
  apply (strategy_A_ratings_ranked scenarioTables). reflexivity.
Defined.

Lemma strategy_B_ratings_ranked_witness :
  PerformanceOptimizedRatings keyOrder scenarioTables = Ok scenarioRatingsB
  ∧ ranked (fst (fst scenarioRatingsB))
  ∧ ranked (snd (fst scenarioRatingsB))
  ∧ ranked (snd scenarioRatingsB).
Proof.
  split; [reflexivity |].
  apply (strategy_B_ratings_ranked keyOrder scenarioTables). reflexivity.
Defined.

Lemma strategy_A_rates_table_rows_witness :
  SpaceOptimizedRatings scenarioTables = Ok scenarioRatingsA
  ∧ Forall (ratedUser scenarioTables (rowsOf (actorsCsv scenarioTables)))
      (slice (fst (fst scenarioRatingsA)))
  ∧ Forall (ratedByCommits scenarioTables (rowsOf (reposCsv scenarioTables)))
      (slice (snd (fst scenarioRatingsA)))
  ∧ Forall (ratedByWatches scenarioTables (rowsOf (reposCsv scenarioTables)))
      (slice (snd scenarioRatingsA)).
Proof.
  split; [reflexivity |].
  apply (strategy_A_rates_table_rows scenarioTables). reflexivity.
Defined.

Lemma strategy_A_needs_sound_tables_witness :
  SpaceOptimizedRatings scenarioTables = Ok scenarioRatingsA
  ∧ tableOk 2 (actorsCsv scenarioTables)
  ∧ tableOk 2 (reposCsv scenarioTables).
Proof.
  split; [reflexivity |].
  apply (strategy_A_needs_sound_tables scenarioTables scenarioRatingsA).
  reflexivity.
Defined.

Lemma strategy_B_needs_sound_tables_witness :
  PerformanceOptimizedRatings keyOrder scenarioTables = Ok scenarioRatingsB
  ∧ tableOk 4 (eventsCsv scenarioTables)
  ∧ tableOk 2 (actorsCsv scenarioTables)
  ∧ tableOk 2 (reposCsv scenarioTables).
Proof.
  split; [reflexivity |].
  apply (strategy_B_needs_sound_tables keyOrder scenarioTables
           scenarioRatingsB).
  reflexivity.
Defined.

Lemma strategy_B_rates_counted_ids_witness :
  rangeSound keyOrder
  ∧ PerformanceOptimizedRatings keyOrder scenarioTables = Ok scenarioRatingsB
  ∧ Forall (λ u,
              (∃ event, event ∈ eventsOf scenarioTables ∧ countsForUser event
                        ∧ Event.ActorID event = RatableUser.ID u)
              ∧ countUserRating scenarioTables (RatableUser.ID u)
                = Ok (RatableUser.Commits u, RatableUser.PREvents u))
      (slice (fst (fst scenarioRatingsB)))
  ∧ Forall (λ c,
              (∃ event, event ∈ eventsOf scenarioTables ∧ countsForRepo event
                        ∧ Event.RepoID event = CommitRatableRepo.ID c)
              ∧ ∃ w, countRepoRating scenarioTables (CommitRatableRepo.ID c)
                     = Ok (CommitRatableRepo.Commits c, w))
      (slice (snd (fst scenarioRatingsB)))
  ∧ Forall (λ w,
              (∃ event, event ∈ eventsOf scenarioTables ∧ countsForRepo event
                        ∧ Event.RepoID event = WatchRatableRepo.ID w)
              ∧ ∃ c, countRepoRating scenarioTables (WatchRatableRepo.ID w)
                     = Ok (c, WatchRatableRepo.WatchEvents w))
      (slice (snd scenarioRatingsB)).
Proof.
  split; [apply keyOrder_sound |]. split; [reflexivity |].
  apply (strategy_B_rates_counted_ids keyOrder scenarioTables);
    [apply keyOrder_sound | reflexivity].
Defined.
